(** * FGAme collision phases: broad phase (sweep and prune) and narrow phase

    A shallow embedding of [FGAme/physics/broadphase.py].  Bodies, contacts
    and the dispatch registry are the collaborators the module reads and
    writes; the functions below follow the Python methods line by line, with
    the held result list [_data] and the dispatch registry passed explicitly
    as state. *)

From Stdlib Require Import ZArith Lia Sorted Permutation.
From Stdlib Require SpecFloat.
From stdpp Require Import base option list sorting gmap strings.

Open Scope Z_scope.

(** ** Data model *)

(** A number is carried by its value, an integer: an [int], or a [float]
    that holds an integer value.  Comparing two such numbers is comparing
    their values.  What the arithmetic of the source returns on them is not
    fixed here: it is the parameter [Arith] below, exact for [int]s and
    rounded for [float]s. *)
Record Vec2 := mkVec { vx : Z; vy : Z }.

(** [v * -1] *)
Definition vneg (v : Vec2) : Vec2 := mkVec (- vx v) (- vy v).

(** The arithmetic the circle sweep computes with: [a + b], [a - b] and the
    outcome of comparing [v.norm()] with a number [s] ([Gt] when
    [v.norm() > s]).  Each operation returns what the interpreter computes,
    rounding included; no law is assumed of them. *)
Record Arith := mkArith {
  f_add : Z → Z → Z;
  f_sub : Z → Z → Z;
  f_norm_cmp : Vec2 → Z → comparison
}.

(** [u - v] on vectors, component by component. *)
Definition vsub (ar : Arith) (u v : Vec2) : Vec2 :=
  mkVec (f_sub ar (vx u) (vx v)) (f_sub ar (vy u) (vy v)).

(** [v.norm() > s] *)
Definition norm_gt (ar : Arith) (v : Vec2) (s : Z) : bool :=
  match f_norm_cmp ar v s with
  | Gt => true
  | _ => false
  end.

(** The arithmetic of Python's [float] (IEEE 754 binary64, round to nearest,
    ties to even) on integer values, from the Standard Library's
    specification of the format.  An infinite result is carried by
    [2 ^ 1024], beyond every finite value; no operation on values below that
    magnitude yields a NaN.  [norm] is the norm of the vector library, the
    square root of the sum of the squares. *)
Module Float64.

Definition prec : Z := 53.
Definition emax : Z := 1024.

Definition of_Z (z : Z) : SpecFloat.spec_float :=
  SpecFloat.binary_normalize prec emax z 0 false.

Definition to_Z (f : SpecFloat.spec_float) : Z :=
  match f with
  | SpecFloat.S754_zero _ => 0
  | SpecFloat.S754_finite s m e =>
      let v := if 0 <=? e then Zpos m * 2 ^ e else Zpos m / 2 ^ (- e) in
      if s then - v else v
  | SpecFloat.S754_infinity s => if s then - 2 ^ 1024 else 2 ^ 1024
  | SpecFloat.S754_nan => 0
  end.

Definition add (a b : Z) : Z :=
  to_Z (SpecFloat.SFadd prec emax (of_Z a) (of_Z b)).

Definition sub (a b : Z) : Z :=
  to_Z (SpecFloat.SFsub prec emax (of_Z a) (of_Z b)).

Definition norm (v : Vec2) : SpecFloat.spec_float :=
  SpecFloat.SFsqrt prec emax
    (SpecFloat.SFadd prec emax
       (SpecFloat.SFmul prec emax (of_Z (vx v)) (of_Z (vx v)))
       (SpecFloat.SFmul prec emax (of_Z (vy v)) (of_Z (vy v)))).

Definition norm_cmp (v : Vec2) (s : Z) : comparison :=
  match SpecFloat.SFcompare (norm v) (of_Z s) with
  | Some c => c
  | None => Lt
  end.

Definition arith : Arith := mkArith add sub norm_cmp.

End Float64.

(** The attributes of a body that the collision phases read.  [body_type] is
    [type(obj)], the concrete class used by the dispatch registry. *)
Record Body := mkBody {
  body_type : string;
  xmin : Z; xmax : Z;
  ymin : Z; ymax : Z;
  pos : Vec2;
  cbb_radius : Z;
  is_dynamic : bool;
  is_sleep : bool
}.

(** Bodies can be compared and collected in sets, as Python objects can.  A
    record stands for the object: two bodies with the same attributes are
    the same member of a set. *)
#[global] Instance Vec2_eq_dec : EqDecision Vec2.
Proof. solve_decision. Defined.

#[global] Instance Body_eq_dec : EqDecision Body.
Proof. solve_decision. Defined.

#[global] Instance Body_countable : Countable Body.
Proof.
  apply (inj_countable'
    (λ b, (body_type b, xmin b, xmax b, ymin b, ymax b,
           vx (pos b), vy (pos b), cbb_radius b, is_dynamic b, is_sleep b))
    (λ t, let '(ty, x0, x1, y0, y1, px, py, r, d, sl) := t in
          mkBody ty x0 x1 y0 y1 (mkVec px py) r d sl)).
  by intros [? ? ? ? ? [] ? ? ?].
Defined.

(** Candidate pairs of the broad phase, tagged by the bounding volume that
    produced them. *)
Inductive Pair :=
| AABBContact (A B : Body)
| CBBContact (A B : Body).

(** [for A, B in pair] *)
Definition bodies (p : Pair) : Body * Body :=
  match p with
  | AABBContact A B => (A, B)
  | CBBContact A B => (A, B)
  end.

Definition World := nat.

(** Modelled from the spec: the contact object returned by the intersection
    tests (class [Collision] of [FGAme.physics], not part of this module):
    the colliding pair, the contact normal and the back-reference to the
    world. *)
Record Collision := mkCollision {
  col_A : Body;
  col_B : Body;
  col_normal : Vec2;
  col_world : option World
}.

(** [col.normal *= -1] *)
Definition negate_normal (col : Collision) : Collision :=
  mkCollision (col_A col) (col_B col) (vneg (col_normal col)) (col_world col).

(** [col.world = w] *)
Definition set_world (w : option World) (col : Collision) : Collision :=
  mkCollision (col_A col) (col_B col) (col_normal col) w.

(** Modelled from the spec: [Collision.swapped()], an equivalent contact with
    roles and normal reversed. *)
Definition swapped (col : Collision) : Collision :=
  mkCollision (col_B col) (col_A col) (vneg (col_normal col)) (col_world col).

(** Modelled from the spec: [mathtools.shadow_y], the length of the common
    vertical projection of two bodies (not positive when the projections do
    not overlap). *)
Definition shadow_y (A B : Body) : Z :=
  Z.min (ymax A) (ymax B) - Z.max (ymin A) (ymin B).

(** ** AbstractCollisionPhase *)

(** The two slots of a phase object: [world] and [_data]. *)
Record Phase (T : Type) := mkPhase {
  world : option World;
  _data : list T
}.
Arguments mkPhase {T} _ _.
Arguments world {T} _.
Arguments _data {T} _.

Module AbstractCollisionPhase.

(** [__init__(self, data=[], world=None)] *)
Definition init {T} (data : list T) (w : option World) : Phase T :=
  let self := mkPhase w [] in
  mkPhase (world self) (_data self ++ data).

(** [__iter__] *)
Definition iter {T} (self : Phase T) : list T := _data self.

(** [objects(self)]: the set built by adding both bodies of every held
    pair; [unpack] is the unpacking [for A, B in self._data].  The iterator
    the method returns runs over this set, in no particular order. *)
Definition objects {T} (unpack : T → Body * Body) (self : Phase T) : gset Body :=
  foldl (λ objs p, let '(A, B) := unpack p in (objs ∪ {[A]}) ∪ {[B]})
        ∅ (_data self).

End AbstractCollisionPhase.

(** Python's [sorted(L, key=...)] is a stable sort; modelled by the stable
    insertion sort: an element goes before the first element whose key is
    not smaller. *)
Fixpoint insert_by {T} (key : T → Z) (x : T) (l : list T) : list T :=
  match l with
  | [] => [x]
  | y :: l' => if key x <=? key y then x :: l else y :: insert_by key x l'
  end.

Fixpoint sorted {T} (key : T → Z) (L : list T) : list T :=
  match L with
  | [] => []
  | x :: L' => insert_by key x (sorted key L')
  end.

(** ** Broad phase *)

Module BroadPhase.

(** [pairs(self)]: a copy of the held list. *)
Definition pairs (self : Phase Pair) : list Pair := _data self.

End BroadPhase.

Module BroadPhaseAABB.

(** The inner loop [for j in range(i + 1, len(objects))], run on the
    objects after position [i]; [data] is the content of [self._data].  The
    counter [col_idx] is written and never read, and is left out. *)
Fixpoint scan (A : Body) (rest : list Body) (data : list Pair) : list Pair :=
  match rest with
  | [] => data
  | B :: rest' =>
      let A_right := xmax A in
      let A_dynamic := is_dynamic A in
      let B_left := xmin B in
      if B_left >? A_right then data                         (* break *)
      else if negb A_dynamic && negb (is_dynamic B) then scan A rest' data
      else if is_sleep A && is_sleep B then scan A rest' data
      else if shadow_y A B <=? 0 then scan A rest' data
      else scan A rest' (data ++ [AABBContact A B])
  end.

(** The outer loop [for i, A in enumerate(objects)]. *)
Fixpoint sweep (objects : list Body) (data : list Pair) : list Pair :=
  match objects with
  | [] => data
  | A :: rest => sweep rest (scan A rest data)
  end.

Definition update (self : Phase Pair) (L : list Body) : Phase Pair :=
  let objects := sorted xmin L in
  let self := mkPhase (world self) [] in                     (* self._data[:] = [] *)
  mkPhase (world self) (sweep objects (_data self)).

(** [__call__(self, objects)]: update, then return the phase itself. *)
Definition call (self : Phase Pair) (objects : list Body) : Phase Pair :=
  let self := update self objects in
  self.

End BroadPhaseAABB.

Module BroadPhaseCBB.
Section Arithmetic.

(** The arithmetic of the numbers the bodies hold. *)
Variable ar : Arith.

Fixpoint scan (A : Body) (rest : list Body) (data : list Pair) : list Pair :=
  match rest with
  | [] => data
  | B :: rest' =>
      let A_radius := cbb_radius A in
      let A_right := f_add ar (vx (pos A)) A_radius in
      let A_dynamic := is_dynamic A in
      let B_radius := cbb_radius B in
      let B_left := f_sub ar (vx (pos B)) B_radius in
      if B_left >? A_right then data                         (* break *)
      else if negb A_dynamic && negb (is_dynamic B) then scan A rest' data
      else if is_sleep A && is_sleep B then scan A rest' data
      else if norm_gt ar (vsub ar (pos A) (pos B)) (f_add ar A_radius B_radius)
           then scan A rest' data
      else scan A rest' (data ++ [CBBContact A B])
  end.

Fixpoint sweep (objects : list Body) (data : list Pair) : list Pair :=
  match objects with
  | [] => data
  | A :: rest => sweep rest (scan A rest data)
  end.

Definition update (self : Phase Pair) (L : list Body) : Phase Pair :=
  let objects := sorted (λ obj, f_sub ar (vx (pos obj)) (cbb_radius obj)) L in
  let self := mkPhase (world self) [] in                     (* self._data[:] = [] *)
  mkPhase (world self) (sweep objects (_data self)).

(** [__call__(self, objects)] *)
Definition call (self : Phase Pair) (objects : list Body) : Phase Pair :=
  let self := update self objects in
  self.

End Arithmetic.
End BroadPhaseCBB.

(** ** Narrow phase *)

(** A call either returns or raises [CollisionError]. *)
Inductive outcome (T : Type) :=
| CollisionError
| Return (r : T).
Arguments CollisionError {T}.
Arguments Return {T} _.

(** An intersection test: a contact, or [None] when the shapes do not
    intersect. *)
Abbreviation Test := (Body → Body → option Collision).

(** Modelled from the spec: the dispatch registry [get_collision] of
    [FGAme.physics], a mapping keyed by the ordered pair of concrete types.
    Calling it looks the ordered type pair up and raises [CollisionError]
    when no entry exists; [get_collision[tA, tB] = f] registers an entry;
    [get_implementation] retrieves the registered function. *)
Abbreviation Registry := (gmap (string * string) Test).

Definition dispatch (reg : Registry) (A B : Body) : outcome (option Collision) :=
  match reg !! (body_type A, body_type B) with
  | Some f => Return (f A B)
  | None => CollisionError
  end.

Definition get_implementation (reg : Registry) (tA tB : string) : outcome Test :=
  match reg !! (tA, tB) with
  | Some f => Return f
  | None => CollisionError
  end.

Module NarrowPhase.
Section Dispatch.

(** The generic fallback test of [FGAme.physics], any test at all. *)
Variable get_collision_generic : Test.

(** The closure [inverse] built by [get_collision]. *)
Definition inverse (direct : Test) : Test :=
  λ A B,
    match direct B A with
    | Some col => Some (swapped col)
    | None => None
    end.

(** [get_collision(self, A, B)]: the result and the registry it leaves. *)
Definition get_collision (reg : Registry) (A B : Body)
  : outcome (option Collision) * Registry :=
  match dispatch reg A B with
  | Return r => (Return r, reg)
  | CollisionError =>
      match dispatch reg B A with
      | Return None => (Return None, reg)
      | Return (Some col) =>
          let col := negate_normal col in
          (* else: *)
          match get_implementation reg (body_type B) (body_type A) with
          | Return direct =>
              (Return (Some col),
               <[(body_type A, body_type B) := inverse direct]> reg)
          | CollisionError => (CollisionError, reg)
          end
      | CollisionError =>
          let reg := <[(body_type A, body_type B) := get_collision_generic]> reg in
          let reg := <[(body_type B, body_type A) := get_collision_generic]> reg in
          (Return (get_collision_generic A B), reg)
      end
  end.

(** The loop of [update]: [cols] is the list being filled. *)
Fixpoint scan (w : option World) (broad_cols : list Pair)
    (cols : list Collision) (reg : Registry)
  : outcome (list Collision) * Registry :=
  match broad_cols with
  | [] => (Return cols, reg)
  | p :: rest =>
      let '(A, B) := bodies p in
      match get_collision reg A B with
      | (CollisionError, reg') => (CollisionError, reg')
      | (Return None, reg') => scan w rest cols reg'
      | (Return (Some col), reg') =>
          let col := set_world w col in
          scan w rest (cols ++ [col]) reg'
      end
  end.

(** [update(self, broad_cols)]: the phase and the registry after the
    call. *)
Definition update (self : Phase Collision) (reg : Registry)
    (broad_cols : list Pair) : outcome (Phase Collision) * Registry :=
  let self := mkPhase (world self) [] in                     (* self._data = cols = [] *)
  match scan (world self) broad_cols (_data self) reg with
  | (Return cols, reg') => (Return (mkPhase (world self) cols), reg')
  | (CollisionError, reg') => (CollisionError, reg')
  end.

(** [__call__(self, objects)]: update, then return the phase itself. *)
Definition call (self : Phase Collision) (reg : Registry)
    (objects : list Pair) : outcome (Phase Collision) * Registry :=
  match update self reg objects with
  | (Return self, reg') => (Return self, reg')
  | (CollisionError, reg') => (CollisionError, reg')
  end.

(** [get_groups(self, cols=None)]: the returned value ([None] is Python's
    [None]) and what was printed. *)
Definition get_groups (self : Phase Collision) (cols : option (list Collision))
  : option (list (list Body)) * list (Phase Collision) :=
  let cols := match cols with
              | None => AbstractCollisionPhase.iter self
              | Some cols => cols
              end in
  let meta_cols := AbstractCollisionPhase.init cols None in
  (None, [meta_cols]).

End Dispatch.
End NarrowPhase.

(** * Vocabulary of the properties *)

(** ** Order and positions in a list *)

(** [a] comes no later than [b] in the order of [key]. *)
Definition key_le {T} (key : T → Z) (a b : T) : Prop := key a <= key b.

(** [X] occurs before [Y] in [S]. *)
Definition before {T} (S : list T) (X Y : T) : Prop :=
  ∃ l1 l2 l3, S = l1 ++ X :: l2 ++ Y :: l3.

(** [A] and [B] are two of the elements of [L]: they sit at two different
    positions. *)
Definition two_of {T} (L : list T) (A B : T) : Prop :=
  ∃ i j : nat, i ≠ j ∧ L !! i = Some A ∧ L !! j = Some B.

(** ** The shape shared by the two sweeps *)

Section SweepShape.
Variables (lo hi : Body → Z) (keep : Body → Body → bool)
  (mk : Body → Body → Pair).

(** The common control structure: stop at the first body that starts
    right of [A], keep the bodies that pass the filters and the test. *)
Fixpoint gscan (A : Body) (rest : list Body) (data : list Pair) : list Pair :=
  match rest with
  | [] => data
  | B :: rest' =>
      if lo B >? hi A then data
      else if keep A B then gscan A rest' (data ++ [mk A B])
      else gscan A rest' data
  end.

Fixpoint gsweep (objects : list Body) (data : list Pair) : list Pair :=
  match objects with
  | [] => data
  | A :: rest => gsweep rest (gscan A rest data)
  end.

End SweepShape.

(** The double loop with no early exit: every body against every later
    one. *)
Fixpoint naive_scan (test : Body → Body → bool) (mk : Body → Body → Pair)
    (A : Body) (rest : list Body) : list Pair :=
  match rest with
  | [] => []
  | B :: rest' =>
      if test A B then mk A B :: naive_scan test mk A rest'
      else naive_scan test mk A rest'
  end.

Fixpoint naive_pairs (test : Body → Body → bool) (mk : Body → Body → Pair)
    (objects : list Body) : list Pair :=
  match objects with
  | [] => []
  | A :: rest => naive_scan test mk A rest ++ naive_pairs test mk rest
  end.

(** ** Broad phase: the pairs reported *)

(** The two filters of the sweeps. *)
Definition both_static (A B : Body) : bool :=
  negb (is_dynamic A) && negb (is_dynamic B).

Definition both_asleep (A B : Body) : bool := is_sleep A && is_sleep B.

(** An axis-aligned box is well formed when its horizontal extent is not
    reversed. *)
Definition aabb_wf (A : Body) : Prop := xmin A <= xmax A.

(** Overlap of two axis-aligned boxes as the sweep tests it: the horizontal
    extents meet (touching included) and the common vertical shadow is
    positive. *)
Definition aabb_overlap (A B : Body) : bool :=
  (xmin B <=? xmax A) && (xmin A <=? xmax B) && (0 <? shadow_y A B).

(** The extent of a circular bound along the sweep axis, as the sweep
    computes it: [pos.x - cbb_radius] and [pos.x + cbb_radius]. *)
Definition cbb_lo (ar : Arith) (obj : Body) : Z :=
  f_sub ar (vx (pos obj)) (cbb_radius obj).
Definition cbb_hi (ar : Arith) (obj : Body) : Z :=
  f_add ar (vx (pos obj)) (cbb_radius obj).

(** A circular bound is well formed when its computed extent is not
    reversed (a radius that is not negative). *)
Definition cbb_wf (ar : Arith) (A : Body) : Prop := cbb_lo ar A <= cbb_hi ar A.

(** The circle test of the sweep rejects [(A, B)]: the computed norm of
    [A.pos - B.pos] exceeds the computed sum of the radii. *)
Definition circle_gt (ar : Arith) (A B : Body) : bool :=
  match f_norm_cmp ar
          (mkVec (f_sub ar (vx (pos A)) (vx (pos B)))
                 (f_sub ar (vy (pos A)) (vy (pos B))))
          (f_add ar (cbb_radius A) (cbb_radius B)) with
  | Gt => true
  | _ => false
  end.

(** The computed norm of [A.pos - B.pos] equals the computed sum of the
    radii. *)
Definition circle_eq (ar : Arith) (A B : Body) : Prop :=
  f_norm_cmp ar
    (mkVec (f_sub ar (vx (pos A)) (vx (pos B)))
           (f_sub ar (vy (pos A)) (vy (pos B))))
    (f_add ar (cbb_radius A) (cbb_radius B)) = Eq.

(** On the bodies of [L] the circle test answers the same in both orders. *)
Definition circle_test_symmetric (ar : Arith) (L : list Body) : Prop :=
  ∀ X Y, X ∈ L → Y ∈ L → circle_gt ar X Y = circle_gt ar Y X.

(** Overlap of two circular bounds as the sweep tests it: the computed
    extents along the sweep axis meet (touching included) and the circle test
    does not reject the pair. *)
Definition cbb_overlap (ar : Arith) (A B : Body) : bool :=
  (cbb_lo ar B <=? cbb_hi ar A) && (cbb_lo ar A <=? cbb_hi ar B)
  && negb (circle_gt ar A B).

(** The two circular bounds, as sets of points of the plane, have a point in
    common: in exact arithmetic, the distance between the centres is at most
    the sum of the radii. *)
Definition circles_meet (A B : Body) : bool :=
  (0 <=? cbb_radius A + cbb_radius B)
  && ((vx (pos A) - vx (pos B)) * (vx (pos A) - vx (pos B))
      + (vy (pos A) - vy (pos B)) * (vy (pos A) - vy (pos B))
      <=? (cbb_radius A + cbb_radius B) * (cbb_radius A + cbb_radius B)).

(** They touch: the distance between the centres is exactly the sum of the
    radii. *)
Definition circles_touch (A B : Body) : bool :=
  (0 <=? cbb_radius A + cbb_radius B)
  && ((vx (pos A) - vx (pos B)) * (vx (pos A) - vx (pos B))
      + (vy (pos A) - vy (pos B)) * (vy (pos A) - vy (pos B))
      =? (cbb_radius A + cbb_radius B) * (cbb_radius A + cbb_radius B)).

(** The candidate pair [p] associates [A] and [B], in either order. *)
Definition links (p : Pair) (A B : Body) : Prop :=
  bodies p = (A, B) ∨ bodies p = (B, A).

Definition keep_aabb (A B : Body) : bool :=
  negb (both_static A B) && negb (both_asleep A B) && negb (shadow_y A B <=? 0).

Definition keep_cbb (ar : Arith) (A B : Body) : bool :=
  negb (both_static A B) && negb (both_asleep A B) && negb (circle_gt ar A B).

(** ** Narrow phase: dispatch *)

(** Two contacts agree on everything but the order in which the two bodies
    are listed. *)
Definition same_contact (c1 c2 : Collision) : Prop :=
  col_normal c1 = col_normal c2 ∧ col_world c1 = col_world c2.

(** Two results report the same thing: both no collision, or contacts that
    agree. *)
Definition same_report (o1 o2 : option Collision) : Prop :=
  match o1, o2 with
  | Some c1, Some c2 => same_contact c1 c2
  | None, None => True
  | _, _ => False
  end.

Section Resolution.
Variable generic : Test.

(** The test that applies to [(A, B)] under a registry: the direct entry,
    else the reversed entry with the normal corrected, else the generic
    fallback. *)
Definition resolved (reg : Registry) (A B : Body) : option Collision :=
  match reg !! (body_type A, body_type B) with
  | Some f => f A B
  | None =>
      match reg !! (body_type B, body_type A) with
      | Some g => negate_normal <$> g B A
      | None => generic A B
      end
  end.

(** Two registries resolve every pair to the same report. *)
Definition reg_equiv (reg reg' : Registry) : Prop :=
  ∀ A B, same_report (resolved reg A B) (resolved reg' A B).

End Resolution.

(** What the applicable test reports for a candidate pair. *)
Definition reported (generic : Test) (reg : Registry) (p : Pair)
  : option Collision :=
  resolved generic reg (bodies p).1 (bodies p).2.

(** The contact [col] held after [update] stands for the candidate pair
    [p]: its world is the phase's and it carries the normal of the contact
    the applicable test reports for [p]. *)
Definition emitted_for (generic : Test) (w : option World) (reg : Registry)
    (col : Collision) (p : Pair) : Prop :=
  col_world col = w
  ∧ ∃ c0, reported generic reg p = Some c0 ∧ col_normal col = col_normal c0.

(** ** Vocabulary of the further properties *)

(** The test the sweep applies to a body [B] met after [A]: [B] starts no
    later than [A] ends, and the pair passes the filters and the overlap
    test. *)
Definition sweep_test (lo hi : Body → Z) (keep : Body → Body → bool)
    (A B : Body) : bool :=
  (lo B <=? hi A) && keep A B.

(** Nothing is left to register for the pair [(A, B)]: its ordered type pair
    has an entry, or the reversed entry exists and reports no collision on
    [(B, A)]. *)
Definition settled (reg : Registry) (A B : Body) : Prop :=
  is_Some (reg !! (body_type A, body_type B))
  ∨ ∃ g, reg !! (body_type B, body_type A) = Some g ∧ g B A = None.

(** The contact [col] stands for two bodies of [L] that overlap, pass the
    filters and collide according to the applicable test. *)
Definition stands_for_input_pair (generic : Test) (w : option World)
    (reg : Registry) (L : list Body) (overlap : Body → Body → bool)
    (col : Collision) : Prop :=
  ∃ A B, two_of L A B ∧ overlap A B = true
         ∧ both_static A B = false ∧ both_asleep A B = false
         ∧ col_world col = w
         ∧ ∃ c0, resolved generic reg A B = Some c0
                 ∧ col_normal col = col_normal c0.

(** ** Concrete bodies and registries *)

Module Examples.

(** Two discs of radius 1 whose boxes have horizontal extents [0,2] and
    [1,3]. *)
Definition disc1 : Body :=
  mkBody "Circle" 0 2 0 2 (mkVec 1 1) 1 true false.
Definition disc2 : Body :=
  mkBody "Circle" 1 3 0 2 (mkVec 2 1) 1 true false.

(** Two discs of radius 5 that touch at the point (5, 0). *)
Definition left_disc : Body :=
  mkBody "Circle" (-5) 5 (-5) 5 (mkVec 0 0) 5 true false.
Definition right_disc : Body :=
  mkBody "Circle" 5 15 (-5) 5 (mkVec 10 0) 5 true false.

(** A disc and a polygon for the dispatch. *)
Definition ball : Body :=
  mkBody "Circle" 0 2 0 2 (mkVec 1 1) 1 true false.
Definition poly : Body :=
  mkBody "Poly" 1 3 0 2 (mkVec 2 1) 2 true false.

(** A test that always reports a contact, with normal (1, 0). *)
Definition hit : Test := λ A B, Some (mkCollision A B (mkVec 1 0) None).

(** A test that never reports a contact. *)
Definition miss : Test := λ _ _, None.

(** A generic test, with normal (0, 1). *)
Definition generic : Test := λ A B, Some (mkCollision A B (mkVec 0 1) None).

(** Only polygon against circle is registered. *)
Definition reg_hit : Registry := {[ ("Poly", "Circle") := hit ]}.
Definition reg_miss : Registry := {[ ("Poly", "Circle") := miss ]}.

Definition phase0 : Phase Pair := mkPhase None [].

(** Three bodies of horizontal extents [0,1], [5,6] and [10,11]. *)
Definition far1 : Body :=
  mkBody "Circle" 0 1 0 1 (mkVec 0 0) 1 true false.
Definition far2 : Body :=
  mkBody "Circle" 5 6 0 1 (mkVec 5 0) 1 true false.
Definition far3 : Body :=
  mkBody "Circle" 10 11 0 1 (mkVec 10 0) 1 true false.

(** Two walls that overlap but do not move, and two sleeping discs. *)
Definition wall1 : Body :=
  mkBody "AABB" 0 2 0 2 (mkVec 1 1) 2 false false.
Definition wall2 : Body :=
  mkBody "AABB" 1 3 0 2 (mkVec 2 1) 2 false false.
Definition asleep1 : Body :=
  mkBody "Circle" 0 2 0 2 (mkVec 1 1) 1 true true.
Definition asleep2 : Body :=
  mkBody "Circle" 1 3 0 2 (mkVec 2 1) 1 true true.

(** Circle against circle registered. *)
Definition reg_discs : Registry := {[ ("Circle", "Circle") := hit ]}.

(** A small disc at the origin and a disc of radius 2 ^ 53 centred at
    2 ^ 53 + 4 on the same horizontal line: a gap of one unit separates them.
    In binary64 the sum of the radii, 3 + 2 ^ 53, rounds to 2 ^ 53 + 4, the
    distance between the centres. *)
Definition near : Body :=
  mkBody "Circle" (-3) 3 (-3) 3 (mkVec 0 0) 3 true false.
Definition far_off : Body :=
  mkBody "Circle" 4 18014398509481988 (-9007199254740992) 9007199254740992
         (mkVec 9007199254740996 0) 9007199254740992 true false.

(** The same two discs one above the other. *)
Definition above : Body :=
  mkBody "Circle" (-9007199254740992) 9007199254740992 4 18014398509481988
         (mkVec 0 9007199254740996) 9007199254740992 true false.

(** Two discs that touch in exactly one point: the centres are
    10 ^ 16 + 1 apart, the sum of the radii. *)
Definition huge : Body :=
  mkBody "Circle" 0 20000000000000000 (-9999999999999999) 10000000200000000
         (mkVec 10000000000000000 200000000) 10000000000000000 true false.
Definition unit_disc : Body :=
  mkBody "Circle" 0 2 (-1) 1 (mkVec 1 0) 1 true false.

(** A box given with its horizontal extent reversed, and a box that starts
    at the same abscissa. *)
Definition flipped : Body :=
  mkBody "AABB" 3 1 0 2 (mkVec 2 1) 2 true false.
Definition box35 : Body :=
  mkBody "AABB" 3 5 0 2 (mkVec 4 1) 2 true false.

(** A narrow phase of world 7, before and after its updates. *)
Definition narrow0 : Phase Collision := mkPhase (Some 7%nat) [].
Definition narrow1 : Phase Collision :=
  mkPhase (Some 7%nat) [mkCollision poly ball (mkVec (-1) 0) (Some 7%nat)].
Definition narrow2 : Phase Collision :=
  mkPhase (Some 7%nat) [mkCollision ball poly (mkVec (-1) 0) (Some 7%nat)].

End Examples.

(** * Properties *)

(** ** The sort *)

Section Sorted.
Context {T : Type} (key : T → Z).

Lemma insert_by_Permutation x l : insert_by key x l ≡ₚ x :: l.
Proof.
  induction l as [|y l IH]; simpl; [done|].
  destruct (key x <=? key y); [done|].
  rewrite IH. apply perm_swap.
Qed.

Lemma sorted_Permutation L : sorted key L ≡ₚ L.
Proof.
  induction L as [|x L IH]; simpl; [done|].
  by rewrite insert_by_Permutation, IH.
Qed.

Lemma insert_by_StronglySorted x l :
  StronglySorted (key_le key) l → StronglySorted (key_le key) (insert_by key x l).
Proof.
  induction 1 as [|y l Hs IH Hy]; simpl.
  - repeat constructor.
  - destruct (Z.leb_spec (key x) (key y)) as [Hle|Hgt].
    + constructor; [by constructor|].
      constructor; [done|].
      eapply Forall_impl; [exact Hy|]. unfold key_le. intros; lia.
    + constructor; [done|].
      rewrite insert_by_Permutation. constructor; [|done].
      unfold key_le. lia.
Qed.

Lemma sorted_StronglySorted L : StronglySorted (key_le key) (sorted key L).
Proof.
  induction L; simpl; [constructor|by apply insert_by_StronglySorted].
Qed.

End Sorted.

(** ** Positions in a list *)

Lemma before_cons {T} (x : T) S X Y :
  before (x :: S) X Y ↔ (x = X ∧ Y ∈ S) ∨ before S X Y.
Proof.
  split.
  - intros (l1 & l2 & l3 & E). destruct l1 as [|z l1]; simplify_eq/=.
    + left. split; [done|].
      apply elem_of_app. right. apply elem_of_cons. by left.
    + right. by exists l1, l2, l3.
  - intros [[-> HY]|(l1 & l2 & l3 & ->)].
    + apply list_elem_of_split in HY as (l2 & l3 & ->). by exists [], l2, l3.
    + by exists (x :: l1), l2, l3.
Qed.

Lemma before_two_of {T} (S : list T) X Y : before S X Y → two_of S X Y.
Proof.
  intros (l1 & l2 & l3 & ->).
  exists (length l1), (length l1 + S (length l2))%nat. split; [lia|]. split.
  - by rewrite list_lookup_middle.
  - rewrite lookup_app_r by lia.
    replace (length l1 + S (length l2) - length l1)%nat with (S (length l2)) by lia.
    simpl. by rewrite list_lookup_middle.
Qed.

Lemma two_of_sym {T} (L : list T) A B : two_of L A B → two_of L B A.
Proof. intros (i & j & ? & ? & ?). exists j, i. auto. Qed.

Lemma lt_two_of_before {T} (S : list T) X Y (i j : nat) :
  (i < j)%nat → S !! i = Some X → S !! j = Some Y → before S X Y.
Proof.
  intros Hij HX HY.
  pose proof (take_drop_middle S i X HX) as HS.
  assert (drop (Datatypes.S i) S !! (j - Datatypes.S i)%nat = Some Y) as HY'.
  { rewrite lookup_drop. rewrite <- HY. f_equal. lia. }
  pose proof (take_drop_middle _ _ Y HY') as HS'.
  exists (take i S), (take (j - Datatypes.S i) (drop (Datatypes.S i) S)),
    (drop (Datatypes.S (j - Datatypes.S i)) (drop (Datatypes.S i) S)).
  by rewrite HS', HS.
Qed.

Lemma two_of_before {T} (S : list T) A B :
  two_of S A B ↔ before S A B ∨ before S B A.
Proof.
  split.
  - intros (i & j & Hne & HA & HB).
    destruct (Nat.lt_ge_cases i j).
    + left. by eapply lt_two_of_before.
    + right. eapply lt_two_of_before; [|done..]. lia.
  - intros [H|H]; [|apply two_of_sym]; by apply before_two_of.
Qed.

Lemma two_of_Permutation {T} (L L' : list T) A B :
  L ≡ₚ L' → two_of L A B → two_of L' A B.
Proof.
  intros HP (i & j & Hne & HA & HB).
  apply Permutation_inj in HP as (_ & f & Hf & Hl).
  exists (f i), (f j). rewrite <- !Hl. split_and!; [|done..].
  intros E. by apply Hf in E.
Qed.

(** ** The sweeps *)

Section SweepFacts.
Variables (lo hi : Body → Z) (keep : Body → Body → bool)
  (mk : Body → Body → Pair).

Abbreviation gscan' := (gscan lo hi keep mk).
Abbreviation gsweep' := (gsweep lo hi keep mk).

Lemma gscan_app A rest data : gscan' A rest data = data ++ gscan' A rest [].
Proof.
  revert data. induction rest as [|B rest IH]; intros data; simpl.
  - by rewrite app_nil_r.
  - destruct (lo B >? hi A); [by rewrite app_nil_r|].
    destruct (keep A B); [|done].
    rewrite (IH (data ++ _)), (IH [_]). by rewrite app_assoc.
Qed.

Lemma gsweep_app objects data : gsweep' objects data = data ++ gsweep' objects [].
Proof.
  revert data. induction objects as [|A rest IH]; intros data; simpl.
  - by rewrite app_nil_r.
  - rewrite (IH (gscan' _ _ data)), (IH (gscan' _ _ [])).
    by rewrite (gscan_app _ _ data), app_assoc.
Qed.

(** What one forward scan from [A] reports, when the bodies after [A] are
    in increasing order of [lo]. *)
Lemma elem_of_gscan A rest p :
  StronglySorted (key_le lo) rest →
  p ∈ gscan' A rest [] ↔
  ∃ Y, p = mk A Y ∧ Y ∈ rest ∧ lo Y <= hi A ∧ keep A Y = true.
Proof.
  induction 1 as [|B rest Hs IH HB]; simpl.
  - split; [by intros ?%elem_of_nil|by intros (Y & _ & ?%elem_of_nil & _)].
  - destruct (Z.gtb_spec (lo B) (hi A)) as [Hgt|Hle].
    + split; [by intros ?%elem_of_nil|]. intros (Y & _ & HY & Hlo & _).
      apply elem_of_cons in HY as [->|HY]; [lia|].
      rewrite Forall_forall in HB. apply HB in HY. unfold key_le in HY. lia.
    + destruct (keep A B) eqn:Hk.
      * rewrite gscan_app, elem_of_app, IH, list_elem_of_singleton.
        split.
        -- intros [->|(Y & ? & ? & ? & ?)]; [exists B|exists Y];
             rewrite elem_of_cons; split_and!; auto with lia.
        -- intros (Y & -> & HY & ?). apply elem_of_cons in HY as [->|HY];
             [by left|right; by exists Y].
      * rewrite IH. split.
        -- intros (Y & ? & ? & ? & ?). exists Y. rewrite elem_of_cons. auto.
        -- intros (Y & -> & HY & ? & ?).
           apply elem_of_cons in HY as [->|HY]; [congruence|by exists Y].
Qed.

(** What the whole sweep reports on a list in increasing order of [lo]. *)
Lemma elem_of_gsweep S p :
  StronglySorted (key_le lo) S →
  p ∈ gsweep' S [] ↔
  ∃ X Y, p = mk X Y ∧ before S X Y ∧ lo Y <= hi X ∧ keep X Y = true.
Proof.
  induction 1 as [|A rest Hs IH HA]; simpl.
  - split; [by intros ?%elem_of_nil|].
    intros (X & Y & _ & (l1 & l2 & l3 & E) & _).
    by destruct l1.
  - rewrite gsweep_app, elem_of_app, IH, elem_of_gscan by done. split.
    + intros [(Y & -> & HY & ?)|(X & Y & -> & Hb & ?)].
      * exists A, Y. split_and!; try tauto. apply before_cons. by left.
      * exists X, Y. split_and!; try tauto. apply before_cons. by right.
    + intros (X & Y & -> & Hb & ?). apply before_cons in Hb as [[-> HY]|Hb].
      * left. by exists Y.
      * right. by exists X, Y.
Qed.

End SweepFacts.

(** On a list in increasing order of its key, an earlier element has the
    smaller key. *)
Lemma before_sorted {T} (key : T → Z) (S : list T) X Y :
  StronglySorted (key_le key) S → before S X Y → key X <= key Y.
Proof.
  intros Hs (l1 & l2 & l3 & ->).
  apply StronglySorted_app in Hs as (_ & _ & Hs).
  apply StronglySorted_cons in Hs as [HX _].
  rewrite Forall_forall in HX. apply HX.
  apply elem_of_app. right. apply elem_of_cons. by left.
Qed.

(** ** Broad phase: the pairs reported *)

Lemma aabb_scan_gscan A rest data :
  BroadPhaseAABB.scan A rest data = gscan xmin xmax keep_aabb AABBContact A rest data.
Proof.
  revert data. induction rest as [|B rest IH]; intros data; simpl; [done|].
  unfold keep_aabb, both_static, both_asleep.
  destruct (xmin B >? xmax A); [done|].
  destruct (negb (is_dynamic A) && negb (is_dynamic B)); simpl; [done|].
  destruct (is_sleep A && is_sleep B); simpl; [done|].
  destruct (shadow_y A B <=? 0); simpl; done.
Qed.

Lemma aabb_sweep_gsweep S data :
  BroadPhaseAABB.sweep S data = gsweep xmin xmax keep_aabb AABBContact S data.
Proof.
  revert data. induction S as [|A rest IH]; intros data; simpl; [done|].
  by rewrite aabb_scan_gscan, IH.
Qed.

Lemma cbb_scan_gscan ar A rest data :
  BroadPhaseCBB.scan ar A rest data
  = gscan (cbb_lo ar) (cbb_hi ar) (keep_cbb ar) CBBContact A rest data.
Proof.
  revert data. induction rest as [|B rest IH]; intros data; simpl; [done|].
  unfold keep_cbb, circle_gt, both_static, both_asleep, cbb_lo, cbb_hi.
  unfold norm_gt, vsub.
  destruct (f_sub ar (vx (pos B)) (cbb_radius B)
            >? f_add ar (vx (pos A)) (cbb_radius A)); [done|].
  destruct (negb (is_dynamic A) && negb (is_dynamic B)); simpl; [done|].
  destruct (is_sleep A && is_sleep B); simpl; [done|].
  destruct (f_norm_cmp ar _ _); simpl; done.
Qed.

Lemma cbb_sweep_gsweep ar S data :
  BroadPhaseCBB.sweep ar S data
  = gsweep (cbb_lo ar) (cbb_hi ar) (keep_cbb ar) CBBContact S data.
Proof.
  revert data. induction S as [|A rest IH]; intros data; simpl; [done|].
  by rewrite cbb_scan_gscan, IH.
Qed.

(** The pairs held after the box sweep: [X] before [Y] in sorted order, [Y]
    starting no later than [X] ends, filters and shadow test passed. *)
Lemma elem_of_aabb_update self L p :
  p ∈ _data (BroadPhaseAABB.update self L) ↔
  ∃ X Y, p = AABBContact X Y ∧ before (sorted xmin L) X Y
         ∧ xmin Y <= xmax X ∧ keep_aabb X Y = true.
Proof.
  unfold BroadPhaseAABB.update; simpl. rewrite aabb_sweep_gsweep.
  apply elem_of_gsweep, sorted_StronglySorted.
Qed.

Lemma elem_of_cbb_update ar self L p :
  p ∈ _data (BroadPhaseCBB.update ar self L) ↔
  ∃ X Y, p = CBBContact X Y ∧ before (sorted (cbb_lo ar) L) X Y
         ∧ cbb_lo ar Y <= cbb_hi ar X ∧ keep_cbb ar X Y = true.
Proof.
  unfold BroadPhaseCBB.update; simpl. rewrite cbb_sweep_gsweep.
  apply (elem_of_gsweep (cbb_lo ar)), sorted_StronglySorted.
Qed.

Lemma both_static_sym A B : both_static A B = both_static B A.
Proof. unfold both_static. apply andb_comm. Qed.

Lemma both_asleep_sym A B : both_asleep A B = both_asleep B A.
Proof. unfold both_asleep. apply andb_comm. Qed.

Lemma shadow_y_sym A B : shadow_y A B = shadow_y B A.
Proof. unfold shadow_y. lia. Qed.

Lemma aabb_overlap_sym A B : aabb_overlap A B = aabb_overlap B A.
Proof.
  unfold aabb_overlap. rewrite (shadow_y_sym A B).
  by rewrite (andb_comm (xmin B <=? xmax A)).
Qed.

Lemma keep_aabb_true A B :
  keep_aabb A B = true ↔
  both_static A B = false ∧ both_asleep A B = false ∧ 0 < shadow_y A B.
Proof.
  unfold keep_aabb. rewrite !andb_true_iff, !negb_true_iff, Z.leb_gt. tauto.
Qed.

Lemma keep_cbb_true ar A B :
  keep_cbb ar A B = true ↔
  both_static A B = false ∧ both_asleep A B = false ∧ circle_gt ar A B = false.
Proof.
  unfold keep_cbb. rewrite !andb_true_iff, !negb_true_iff. tauto.
Qed.

Lemma cbb_overlap_true ar A B :
  cbb_overlap ar A B = true ↔
  cbb_lo ar B <= cbb_hi ar A ∧ cbb_lo ar A <= cbb_hi ar B
  ∧ circle_gt ar A B = false.
Proof.
  unfold cbb_overlap. rewrite !andb_true_iff, !Z.leb_le, negb_true_iff. tauto.
Qed.

Lemma two_of_sorted {T} (key : T → Z) (L : list T) A B :
  two_of (sorted key L) A B ↔ two_of L A B.
Proof.
  split; apply two_of_Permutation; [|symmetry]; apply sorted_Permutation.
Qed.

Lemma two_of_elem_of {T} (L : list T) A B : two_of L A B → A ∈ L ∧ B ∈ L.
Proof.
  intros (i & j & _ & HA & HB). split; apply list_elem_of_lookup; eauto.
Qed.

Lemma links_sym p A B : links p A B → links p B A.
Proof. unfold links. tauto. Qed.

(** The unordered reading of the box sweep's result. *)
Lemma aabb_update_links self L A B :
  Forall aabb_wf L →
  (∃ p, p ∈ _data (BroadPhaseAABB.update self L) ∧ links p A B) ↔
  two_of L A B ∧ aabb_overlap A B = true
  ∧ both_static A B = false ∧ both_asleep A B = false.
Proof.
  intros Hwf. split.
  - intros (p & Hp & Hl).
    apply elem_of_aabb_update in Hp as (X & Y & -> & Hb & Hreach & Hk).
    apply keep_aabb_true in Hk as (Hst & Hsl & Hsh).
    assert (two_of L X Y) as H2 by (by apply (two_of_sorted xmin), before_two_of).
    assert (aabb_overlap X Y = true) as Hov.
    { pose proof (before_sorted xmin _ _ _ (sorted_StronglySorted xmin L) Hb).
      apply two_of_elem_of in H2 as [_ HY].
      rewrite Forall_forall in Hwf. apply Hwf in HY. unfold aabb_wf in HY.
      unfold aabb_overlap. rewrite !andb_true_iff, !Z.leb_le, Z.ltb_lt. lia. }
    destruct Hl as [E|E]; simpl in E; simplify_eq; [done|].
    rewrite aabb_overlap_sym, both_static_sym, both_asleep_sym.
    split_and!; try done. by apply two_of_sym.
  - intros (H2 & Hov & Hst & Hsl).
    unfold aabb_overlap in Hov. rewrite !andb_true_iff, !Z.leb_le, Z.ltb_lt in Hov.
    destruct Hov as [[HBA HAB] Hsh].
    apply (two_of_sorted xmin), two_of_before in H2 as [Hb|Hb].
    + exists (AABBContact A B). split; [|by left].
      apply elem_of_aabb_update. exists A, B. split_and!; try done.
      by apply keep_aabb_true.
    + exists (AABBContact B A). split; [|by right].
      apply elem_of_aabb_update. exists B, A. split_and!; try done.
      apply keep_aabb_true.
      by rewrite both_static_sym, both_asleep_sym, shadow_y_sym.
Qed.

Lemma circle_test_symmetric_Forall ar L :
  Forall (λ X, Forall (λ Y, circle_gt ar X Y = circle_gt ar Y X) L) L →
  circle_test_symmetric ar L.
Proof.
  intros H X Y HX HY. rewrite Forall_forall in H.
  pose proof (H X HX) as H'. rewrite Forall_forall in H'. by apply H'.
Qed.

Lemma circle_test_symmetric_Permutation ar L L' :
  L ≡ₚ L' → circle_test_symmetric ar L → circle_test_symmetric ar L'.
Proof. intros HP H X Y HX HY. apply H; by rewrite HP. Qed.

(** The unordered reading of the circle sweep's result, for circles of
    well-formed extent and a circle test that answers the same in both
    orders. *)
Lemma cbb_update_links ar self L A B :
  Forall (cbb_wf ar) L → circle_test_symmetric ar L →
  (∃ p, p ∈ _data (BroadPhaseCBB.update ar self L) ∧ links p A B) ↔
  two_of L A B ∧ cbb_overlap ar A B = true
  ∧ both_static A B = false ∧ both_asleep A B = false.
Proof.
  intros Hwf Hsym. rewrite Forall_forall in Hwf. split.
  - intros (p & Hp & Hl).
    apply elem_of_cbb_update in Hp as (X & Y & -> & Hb & Hreach & Hk).
    apply keep_cbb_true in Hk as (Hst & Hsl & Hc).
    pose proof (before_sorted (cbb_lo ar) _ _ _
                  (sorted_StronglySorted (cbb_lo ar) L) Hb) as Hlo.
    assert (two_of L X Y) as H2
      by (by apply (two_of_sorted (cbb_lo ar)), before_two_of).
    destruct (two_of_elem_of _ _ _ H2) as [HX HY].
    pose proof (Hwf _ HY) as HwY. unfold cbb_wf in HwY.
    destruct Hl as [E|E]; simpl in E; simplify_eq.
    + split_and!; try done. apply cbb_overlap_true. split_and!; [done|lia|done].
    + rewrite both_static_sym, both_asleep_sym.
      split_and!; try done; [by apply two_of_sym|].
      apply cbb_overlap_true. split_and!; [lia|done|].
      by rewrite (Hsym A B).
  - intros (H2 & (HBA & HAB & Hc)%cbb_overlap_true & Hst & Hsl).
    destruct (two_of_elem_of _ _ _ H2) as [HA HB].
    apply (two_of_sorted (cbb_lo ar)), two_of_before in H2 as [Hb|Hb].
    + exists (CBBContact A B). split; [|by left].
      apply elem_of_cbb_update. exists A, B. split_and!; try done.
      by apply keep_cbb_true.
    + exists (CBBContact B A). split; [|by right].
      apply elem_of_cbb_update. exists B, A. split_and!; try done.
      apply keep_cbb_true.
      by rewrite both_static_sym, both_asleep_sym, (Hsym B A).
Qed.

(** The filters alone, for any input. *)
Lemma broad_update_filtered ar self L p A B :
  p ∈ _data (BroadPhaseAABB.update self L)
  ∨ p ∈ _data (BroadPhaseCBB.update ar self L) →
  links p A B →
  both_static A B = false ∧ both_asleep A B = false.
Proof.
  intros [Hp|Hp] Hl.
  - apply elem_of_aabb_update in Hp as (X & Y & -> & _ & _ & Hk).
    apply keep_aabb_true in Hk as (Hst & Hsl & _).
    destruct Hl as [E|E]; simpl in E; simplify_eq; [done|].
    by rewrite both_static_sym, both_asleep_sym.
  - apply elem_of_cbb_update in Hp as (X & Y & -> & _ & _ & Hk).
    apply keep_cbb_true in Hk as (Hst & Hsl & _).
    destruct Hl as [E|E]; simpl in E; simplify_eq; [done|].
    by rewrite both_static_sym, both_asleep_sym.
Qed.

(** ** Narrow phase: dispatch *)

Lemma same_report_refl o : same_report o o.
Proof. destruct o; simpl; [split|]; done. Qed.

Lemma same_report_trans o1 o2 o3 :
  same_report o1 o2 → same_report o2 o3 → same_report o1 o3.
Proof.
  destruct o1, o2, o3; simpl; try done.
  intros [??] [??]. split; congruence.
Qed.

Lemma same_report_sym o1 o2 : same_report o1 o2 → same_report o2 o1.
Proof. destruct o1, o2; simpl; try done. intros [??]. by split. Qed.

Lemma same_report_swapped_negated o :
  same_report (swapped <$> o) (negate_normal <$> o).
Proof. destruct o; simpl; [split|]; done. Qed.

Section NarrowFacts.
Variable generic : Test.

Abbreviation get_collision := (NarrowPhase.get_collision generic).
Abbreviation inverse := NarrowPhase.inverse.

Lemma inverse_fmap direct A B : inverse direct A B = swapped <$> direct B A.
Proof. unfold inverse. by destruct (direct B A). Qed.

(** A direct entry answers the call and leaves the registry alone. *)
Lemma get_collision_direct reg A B f :
  reg !! (body_type A, body_type B) = Some f →
  get_collision reg A B = (Return (f A B), reg).
Proof. intros H. unfold NarrowPhase.get_collision, dispatch. by rewrite H. Qed.

(** No direct entry, reversed test reports a collision. *)
Lemma get_collision_reversed_hit reg A B g col :
  reg !! (body_type A, body_type B) = None →
  reg !! (body_type B, body_type A) = Some g →
  g B A = Some col →
  get_collision reg A B =
    (Return (Some (negate_normal col)),
     <[(body_type A, body_type B) := inverse g]> reg).
Proof.
  intros H1 H2 H3.
  unfold NarrowPhase.get_collision, dispatch, get_implementation.
  by rewrite H1, H2, H3.
Qed.

(** No direct entry, reversed test reports no collision. *)
Lemma get_collision_reversed_miss reg A B g :
  reg !! (body_type A, body_type B) = None →
  reg !! (body_type B, body_type A) = Some g →
  g B A = None →
  get_collision reg A B = (Return None, reg).
Proof.
  intros H1 H2 H3. unfold NarrowPhase.get_collision, dispatch.
  by rewrite H1, H2, H3.
Qed.

(** Neither direction registered. *)
Lemma get_collision_generic_branch reg A B :
  reg !! (body_type A, body_type B) = None →
  reg !! (body_type B, body_type A) = None →
  get_collision reg A B =
    (Return (generic A B),
     <[(body_type B, body_type A) := generic]>
       (<[(body_type A, body_type B) := generic]> reg)).
Proof.
  intros H1 H2. unfold NarrowPhase.get_collision, dispatch.
  by rewrite H1, H2.
Qed.

(** [get_collision] never lets [CollisionError] escape, and returns what
    the applicable test reports. *)
Lemma get_collision_resolved reg A B :
  (get_collision reg A B).1 = Return (resolved generic reg A B).
Proof.
  unfold resolved.
  destruct (reg !! (body_type A, body_type B)) as [f|] eqn:H1.
  { by rewrite (get_collision_direct _ _ _ f). }
  destruct (reg !! (body_type B, body_type A)) as [g|] eqn:H2.
  - destruct (g B A) as [col|] eqn:H3.
    + by rewrite (get_collision_reversed_hit _ _ _ g col).
    + by rewrite (get_collision_reversed_miss _ _ _ g).
  - by rewrite get_collision_generic_branch.
Qed.

(** Registering the derived wrapper does not change what any pair
    resolves to, up to the order of the bodies in the contact. *)
Lemma reg_equiv_insert_inverse reg tA tB g :
  reg !! (tA, tB) = None → reg !! (tB, tA) = Some g →
  reg_equiv generic reg (<[(tA, tB) := inverse g]> reg).
Proof.
  intros H1 H2 X Y. unfold resolved.
  destruct (decide ((tA, tB) = (body_type X, body_type Y))) as [E|NE].
  - injection E as -> ->. rewrite lookup_insert_eq, H1, H2, inverse_fmap.
    apply same_report_sym, same_report_swapped_negated.
  - rewrite lookup_insert_ne by done.
    destruct (reg !! (body_type X, body_type Y)) eqn:H3;
      [apply same_report_refl|].
    rewrite lookup_insert_ne; [apply same_report_refl|].
    intros E. injection E as -> ->. congruence.
Qed.

(** Registering the generic test for a type pair unknown in both orders
    does not change what any pair resolves to. *)
Lemma resolved_insert_generic reg tA tB X Y :
  reg !! (tA, tB) = None → reg !! (tB, tA) = None →
  resolved generic (<[(tB, tA) := generic]> (<[(tA, tB) := generic]> reg)) X Y
  = resolved generic reg X Y.
Proof.
  intros H1 H2. unfold resolved.
  destruct (decide ((tB, tA) = (body_type X, body_type Y))) as [E|NE].
  { injection E as -> ->. by rewrite lookup_insert_eq, H2, H1. }
  rewrite lookup_insert_ne by done.
  destruct (decide ((tA, tB) = (body_type X, body_type Y))) as [E|NE'].
  { injection E as -> ->. by rewrite lookup_insert_eq, H1, H2. }
  rewrite lookup_insert_ne by done.
  destruct (reg !! (body_type X, body_type Y)) eqn:H3; [done|].
  rewrite !lookup_insert_ne; [done|congruence..].
Qed.

(** The registry left by [get_collision] resolves every pair as the one it
    started from, up to the order of the bodies in the contact. *)
Lemma get_collision_reg_equiv reg A B :
  reg_equiv generic reg (get_collision reg A B).2.
Proof.
  destruct (reg !! (body_type A, body_type B)) as [f|] eqn:H1.
  { rewrite (get_collision_direct _ _ _ f) by done.
    intros X Y. apply same_report_refl. }
  destruct (reg !! (body_type B, body_type A)) as [g|] eqn:H2.
  - destruct (g B A) as [col|] eqn:H3.
    + rewrite (get_collision_reversed_hit _ _ _ g col) by done.
      by apply reg_equiv_insert_inverse.
    + rewrite (get_collision_reversed_miss _ _ _ g) by done.
      intros X Y. apply same_report_refl.
  - rewrite get_collision_generic_branch by done. intros X Y; simpl.
    rewrite resolved_insert_generic by done. apply same_report_refl.
Qed.

End NarrowFacts.

(** ** Narrow phase: update *)

Section NarrowUpdate.
Variable generic : Test.

Lemma reg_equiv_trans r0 r1 r2 :
  reg_equiv generic r0 r1 → reg_equiv generic r1 r2 → reg_equiv generic r0 r2.
Proof. intros H1 H2 A B. eapply same_report_trans; [apply H1|apply H2]. Qed.

Lemma scan_spec w reg0 broad_cols :
  ∀ cols reg, reg_equiv generic reg0 reg →
  ∃ cols',
    (NarrowPhase.scan generic w broad_cols cols reg).1 = Return (cols ++ cols')
    ∧ Forall2 (emitted_for generic w reg0) cols'
        (filter (λ p, is_Some (reported generic reg0 p)) broad_cols).
Proof.
  induction broad_cols as [|p rest IH]; intros cols reg Heq; simpl.
  { exists []. by rewrite app_nil_r. }
  pose proof (Heq (bodies p).1 (bodies p).2) as Hrep.
  fold (reported generic reg0 p) in Hrep.
  destruct (bodies p) as [A B] eqn:Hp; simpl in Hrep.
  pose proof (get_collision_resolved generic reg A B) as Hres.
  pose proof (get_collision_reg_equiv generic reg A B) as Heq'.
  destruct (NarrowPhase.get_collision generic reg A B) as [o reg'].
  simpl in Hres, Heq'. subst o.
  assert (reg_equiv generic reg0 reg') as Heq0 by (by eapply reg_equiv_trans).
  destruct (resolved generic reg A B) as [col|].
  - destruct (reported generic reg0 p) as [c0|] eqn:Hc0; [|done].
    destruct Hrep as [Hn Hw].
    destruct (IH (cols ++ [set_world w col]) reg' Heq0) as (cols' & -> & HF).
    exists (set_world w col :: cols'). split; [by rewrite <- app_assoc|].
    rewrite filter_cons_True by (by rewrite Hc0).
    constructor; [|done]. split; [done|].
    exists c0. split; [done|]. by simpl.
  - destruct (reported generic reg0 p) as [c0|] eqn:Hc0; [done|].
    destruct (IH cols reg' Heq0) as (cols' & -> & HF).
    exists cols'. split; [done|].
    rewrite filter_cons_False; [done|]. rewrite Hc0. by intros [??].
Qed.

End NarrowUpdate.

(** ** The model on concrete inputs *)

Import Examples.

Example sorted_is_stable :
  sorted xmin [wall2; disc1; wall1; disc2] = [disc1; wall1; wall2; disc2].
Proof. reflexivity. Qed.

Example two_boxes_one_pair :
  _data (BroadPhaseAABB.update phase0 [disc2; disc1]) = [AABBContact disc1 disc2]
  ∧ _data (BroadPhaseCBB.update Float64.arith phase0 [disc2; disc1])
    = [CBBContact disc1 disc2].
Proof. split; reflexivity. Qed.

Example three_apart_no_pair :
  _data (BroadPhaseAABB.update phase0 [far1; far2; far3]) = []
  ∧ _data (BroadPhaseCBB.update Float64.arith phase0 [far1; far2; far3]) = [].
Proof. split; reflexivity. Qed.

(** Rounding at work: 3 + 2 ^ 53 gives 2 ^ 53 + 4, and the norm of
    (10 ^ 16 - 1, 2 * 10 ^ 8), which is 10 ^ 16 + 1, is computed as
    10 ^ 16 + 2. *)
Example float64_rounds :
  Float64.add 3 9007199254740992 = 9007199254740996
  ∧ Float64.sub 10000000000000000 1 = 10000000000000000
  ∧ Float64.to_Z (Float64.norm (mkVec 10000000000000000 200000000))
    = 10000000000000002
  ∧ Float64.add 1 2 = 3 ∧ Float64.sub 5 7 = -2
  ∧ Float64.norm_cmp (mkVec 3 4) 5 = Eq.
Proof. by vm_compute. Qed.

Example filtered_pairs_dropped :
  _data (BroadPhaseAABB.update phase0 [wall1; wall2; asleep1; asleep2])
  = [AABBContact wall1 asleep1; AABBContact wall1 asleep2;
     AABBContact asleep1 wall2; AABBContact wall2 asleep2].
Proof. reflexivity. Qed.

Example narrow_one_contact :
  (NarrowPhase.update generic (mkPhase (Some 7%nat) []) reg_discs
     [AABBContact disc1 disc2]).1
  = Return (mkPhase (Some 7%nat)
              [mkCollision disc1 disc2 (mkVec 1 0) (Some 7%nat)]).
Proof. reflexivity. Qed.

(** * The claims *)

(** C1 (as amended): for every input list, the pairs held after a
    broad-phase update are exactly the unordered pairs of bodies of the list
    that overlap as the sweep tests it, except those with both bodies
    non-dynamic and those with both bodies asleep.  For the box sweep, on
    boxes with [xmin <= xmax]: the horizontal extents meet and the vertical
    shadow is positive.  For the circle sweep, on circles whose computed
    extent [pos.x - cbb_radius], [pos.x + cbb_radius] is not reversed and
    whose test answers the same in both orders: the computed extents meet and
    the computed norm of the difference of the centres does not exceed the
    computed sum of the radii.  For any circles and any arithmetic, the
    circle sweep holds [(A, B)] in this order exactly when [A] comes before
    [B] in the sorted order, [B]'s computed lower extent is not greater than
    [A]'s computed upper extent, the circle test does not reject the pair and
    neither filter applies.  A pair with both bodies non-dynamic or both
    asleep is never held, whatever the input and the arithmetic. *)
Theorem broad_phase_reports_overlapping_pairs
    (ar : Arith) (self : Phase Pair) (L : list Body) (A B : Body) :
  (Forall aabb_wf L →
   (∃ p, p ∈ _data (BroadPhaseAABB.update self L) ∧ links p A B) ↔
   two_of L A B ∧ aabb_overlap A B = true
   ∧ both_static A B = false ∧ both_asleep A B = false)
  ∧ (Forall (cbb_wf ar) L → circle_test_symmetric ar L →
     (∃ p, p ∈ _data (BroadPhaseCBB.update ar self L) ∧ links p A B) ↔
     two_of L A B ∧ cbb_overlap ar A B = true
     ∧ both_static A B = false ∧ both_asleep A B = false)
  ∧ (CBBContact A B ∈ _data (BroadPhaseCBB.update ar self L) ↔
     before (sorted (cbb_lo ar) L) A B
     ∧ cbb_lo ar B <= cbb_hi ar A ∧ circle_gt ar A B = false
     ∧ both_static A B = false ∧ both_asleep A B = false)
  ∧ (∀ p, p ∈ _data (BroadPhaseAABB.update self L)
          ∨ p ∈ _data (BroadPhaseCBB.update ar self L) →
          links p A B →
          both_static A B = false ∧ both_asleep A B = false).
Proof.
  split_and!.
  - apply aabb_update_links.
  - apply cbb_update_links.
  - rewrite elem_of_cbb_update. split.
    + intros (X & Y & Heq & Hb & Hr & Hk). injection Heq as <- <-.
      apply keep_cbb_true in Hk. tauto.
    + intros (Hb & Hr & Hc & Hst & Hsl). exists A, B. split_and!; try done.
      by apply keep_cbb_true.
  - intros p. apply broad_update_filtered.
Qed.

(** The two discs of extents [0,2] and [1,3], given in reverse order, with
    the arithmetic of floats. *)
Lemma broad_phase_reports_overlapping_pairs_witness :
  Forall aabb_wf [disc2; disc1]
  ∧ Forall (cbb_wf Float64.arith) [disc2; disc1]
  ∧ circle_test_symmetric Float64.arith [disc2; disc1]
  ∧ ((∃ p, p ∈ _data (BroadPhaseAABB.update phase0 [disc2; disc1])
           ∧ links p disc1 disc2) ↔
     two_of [disc2; disc1] disc1 disc2 ∧ aabb_overlap disc1 disc2 = true
     ∧ both_static disc1 disc2 = false ∧ both_asleep disc1 disc2 = false)
  ∧ ((∃ p, p ∈ _data (BroadPhaseCBB.update Float64.arith phase0 [disc2; disc1])
           ∧ links p disc1 disc2) ↔
     two_of [disc2; disc1] disc1 disc2
     ∧ cbb_overlap Float64.arith disc1 disc2 = true
     ∧ both_static disc1 disc2 = false ∧ both_asleep disc1 disc2 = false).
Proof.
  assert (Forall aabb_wf [disc2; disc1]) as Hwf.
  { repeat constructor; unfold aabb_wf; simpl; lia. }
  assert (Forall (cbb_wf Float64.arith) [disc2; disc1]) as Hcwf.
  { repeat constructor; by vm_compute. }
  assert (circle_test_symmetric Float64.arith [disc2; disc1]) as Hsym.
  { apply circle_test_symmetric_Forall. repeat constructor; by vm_compute. }
  destruct (broad_phase_reports_overlapping_pairs
              Float64.arith phase0 [disc2; disc1] disc1 disc2)
    as (H1 & H2 & _ & _).
  split_and!; [exact Hwf|exact Hcwf|exact Hsym|exact (H1 Hwf)|exact (H2 Hcwf Hsym)].
Defined.

(** C1 as stated fails.  Circles, with the arithmetic of floats: the circle
    test accepts [near] and [far_off] in both orders (the computed distance
    does not exceed the computed sum of the radii) and no filter applies, but
    the break cuts the pair and nothing is held; and [near] and [above] are
    held as a pair although the circles, a gap of one unit apart, have no
    point in common.  Boxes: with the box [flipped], whose extent is
    reversed, what is held depends on the order of the input. *)
Lemma broad_phase_pairs_counterexample :
  (circle_gt Float64.arith near far_off = false
   ∧ circle_gt Float64.arith far_off near = false
   ∧ both_static near far_off = false ∧ both_asleep near far_off = false
   ∧ _data (BroadPhaseCBB.update Float64.arith phase0 [near; far_off]) = []
   ∧ _data (BroadPhaseCBB.update Float64.arith phase0 [far_off; near]) = [])
  ∧ (circles_meet near above = false
     ∧ _data (BroadPhaseCBB.update Float64.arith phase0 [near; above])
       = [CBBContact above near])
  ∧ (_data (BroadPhaseAABB.update phase0 [flipped; box35]) = []
     ∧ _data (BroadPhaseAABB.update phase0 [box35; flipped])
       = [AABBContact box35 flipped]).
Proof. by vm_compute. Qed.

(** C2: [NarrowPhase.update] never raises; the contacts it holds afterwards
    stand, in order, for exactly the candidate pairs for which the applicable
    test (direct, reversed with corrected normal, or generic) reports a
    collision, each with its world set to the phase's world; the other pairs
    leave no trace. *)
Theorem narrow_update_emits_reported_contacts
    (generic : Test) (self : Phase Collision) (reg : Registry)
    (broad_cols : list Pair) :
  ∃ cols,
    (NarrowPhase.update generic self reg broad_cols).1
      = Return (mkPhase (world self) cols)
    ∧ Forall2 (emitted_for generic (world self) reg) cols
        (filter (λ p, is_Some (reported generic reg p)) broad_cols).
Proof.
  unfold NarrowPhase.update; simpl.
  destruct (scan_spec generic (world self) reg broad_cols [] reg)
    as (cols & Hs & HF).
  { intros A B. apply same_report_refl. }
  exists cols. split; [|done].
  destruct (NarrowPhase.scan _ _ _ _ _) as [o reg']. simpl in Hs. by subst o.
Qed.

(** C3 (as amended): after a first call [get_collision(A, B)] that goes
    through the generic-registration branch, or through the reversed detour
    with the reversed test reporting a collision, a later call for bodies of
    the same two types is answered by the newly registered entry in one
    direct lookup that leaves the registry as it is; it reports a collision
    exactly when the uncached path would, with the same normal and world; in
    the reversed order, and in both orders after the generic branch, the
    result is identical to the uncached one. *)
Theorem cached_dispatch_agrees
    (generic : Test) (reg : Registry) (A B A' B' : Body) :
  body_type A' = body_type A → body_type B' = body_type B →
  reg !! (body_type A, body_type B) = None →
  (reg !! (body_type B, body_type A) = None
   ∨ ∃ g col, reg !! (body_type B, body_type A) = Some g ∧ g B A = Some col) →
  let reg1 := (NarrowPhase.get_collision generic reg A B).2 in
  (∃ f, reg1 !! (body_type A, body_type B) = Some f
        ∧ NarrowPhase.get_collision generic reg1 A' B' = (Return (f A' B'), reg1))
  ∧ (∃ cached uncached,
        (NarrowPhase.get_collision generic reg1 A' B').1 = Return cached
        ∧ (NarrowPhase.get_collision generic reg A' B').1 = Return uncached
        ∧ same_report cached uncached)
  ∧ (NarrowPhase.get_collision generic reg1 B' A').1
    = (NarrowPhase.get_collision generic reg B' A').1
  ∧ (reg !! (body_type B, body_type A) = None →
     (NarrowPhase.get_collision generic reg1 A' B').1
     = (NarrowPhase.get_collision generic reg A' B').1).
Proof.
  intros HA HB H1 Hc reg1.
  assert (reg_equiv generic reg reg1) as Heq by apply get_collision_reg_equiv.
  split_and!.
  - destruct Hc as [H2|(g & col & H2 & H3)]; subst reg1.
    + rewrite get_collision_generic_branch by done; simpl.
      assert (<[(body_type B, body_type A):=generic]>
                (<[(body_type A, body_type B):=generic]> reg)
                !! (body_type A, body_type B) = Some generic) as Hl.
      { destruct (decide ((body_type B, body_type A) = (body_type A, body_type B)))
          as [E|NE].
        - rewrite E. apply lookup_insert_eq.
        - rewrite lookup_insert_ne by done. apply lookup_insert_eq. }
      exists generic. split; [done|].
      apply get_collision_direct. by rewrite HA, HB.
    + rewrite (get_collision_reversed_hit _ _ _ _ g col) by done; simpl.
      exists (NarrowPhase.inverse g). rewrite lookup_insert_eq. split; [done|].
      apply get_collision_direct. rewrite HA, HB. apply lookup_insert_eq.
  - exists (resolved generic reg1 A' B'), (resolved generic reg A' B').
    rewrite !get_collision_resolved. split_and!; try done.
    apply same_report_sym, Heq.
  - rewrite !get_collision_resolved. f_equal.
    destruct Hc as [H2|(g & col & H2 & H3)]; subst reg1.
    + rewrite get_collision_generic_branch by done; simpl.
      by apply resolved_insert_generic.
    + rewrite (get_collision_reversed_hit _ _ _ _ g col) by done; simpl.
      unfold resolved. rewrite HA, HB.
      rewrite lookup_insert_ne by congruence. by rewrite H2.
  - intros H2. rewrite !get_collision_resolved. f_equal. subst reg1.
    rewrite get_collision_generic_branch by done; simpl.
    by apply resolved_insert_generic.
Qed.

(** A ball against a polygon, with only polygon against circle registered. *)
Lemma cached_dispatch_agrees_witness :
  let reg1 := (NarrowPhase.get_collision generic reg_hit ball poly).2 in
  (∃ f, reg1 !! ("Circle", "Poly") = Some f
        ∧ NarrowPhase.get_collision generic reg1 ball poly
          = (Return (f ball poly), reg1))
  ∧ (∃ cached uncached,
        (NarrowPhase.get_collision generic reg1 ball poly).1 = Return cached
        ∧ (NarrowPhase.get_collision generic reg_hit ball poly).1 = Return uncached
        ∧ same_report cached uncached)
  ∧ (NarrowPhase.get_collision generic reg1 poly ball).1
    = (NarrowPhase.get_collision generic reg_hit poly ball).1
  ∧ (reg_hit !! ("Poly", "Circle") = None →
     (NarrowPhase.get_collision generic reg1 ball poly).1
     = (NarrowPhase.get_collision generic reg_hit ball poly).1).
Proof.
  apply (cached_dispatch_agrees generic reg_hit ball poly ball poly);
    [reflexivity|reflexivity|reflexivity|].
  right. exists hit, (mkCollision poly ball (mkVec 1 0) None).
  split; reflexivity.
Defined.

(** C3 as stated fails.  With only polygon against circle registered, the
    first call for (ball, poly) returns the contact of (poly, ball) with its
    normal negated and the bodies in the order (poly, ball); the next call,
    answered by the cached wrapper, returns the bodies in the order
    (ball, poly): the two differ, and not by the sign of the normal.  And
    when the reversed test reports no collision, the first call caches
    nothing. *)
Lemma cached_dispatch_not_identical :
  reg_hit !! ("Circle", "Poly") = None
  ∧ reg_hit !! ("Poly", "Circle") = Some hit
  ∧ (NarrowPhase.get_collision generic reg_hit ball poly).1
    = Return (Some (mkCollision poly ball (mkVec (-1) 0) None))
  ∧ (NarrowPhase.get_collision generic
       (NarrowPhase.get_collision generic reg_hit ball poly).2 ball poly).1
    = Return (Some (mkCollision ball poly (mkVec (-1) 0) None))
  ∧ mkCollision ball poly (mkVec (-1) 0) None
    ≠ mkCollision poly ball (mkVec (-1) 0) None
  ∧ mkCollision ball poly (mkVec (-1) 0) None
    ≠ negate_normal (mkCollision poly ball (mkVec (-1) 0) None)
  ∧ reg_miss !! ("Poly", "Circle") = Some miss
  ∧ NarrowPhase.get_collision generic reg_miss ball poly = (Return None, reg_miss)
  ∧ reg_miss !! ("Circle", "Poly") = None.
Proof.
  split_and!; try reflexivity; intros H; discriminate H.
Qed.

(** C4: with neither [(type(A), type(B))] nor [(type(B), type(A))]
    registered, [get_collision(A, B)] registers the generic test under both
    ordered type pairs, touches no other entry, and returns what the generic
    test reports on [(A, B)]; any later pair of these two types, in either
    order, goes straight to the generic test. *)
Theorem generic_fallback_registered_both_ways
    (generic : Test) (reg : Registry) (A B : Body) :
  reg !! (body_type A, body_type B) = None →
  reg !! (body_type B, body_type A) = None →
  let reg' := (NarrowPhase.get_collision generic reg A B).2 in
  (NarrowPhase.get_collision generic reg A B).1 = Return (generic A B)
  ∧ reg' !! (body_type A, body_type B) = Some generic
  ∧ reg' !! (body_type B, body_type A) = Some generic
  ∧ (∀ k, k ≠ (body_type A, body_type B) → k ≠ (body_type B, body_type A) →
          reg' !! k = reg !! k)
  ∧ (∀ A' B',
        (body_type A', body_type B') = (body_type A, body_type B)
        ∨ (body_type A', body_type B') = (body_type B, body_type A) →
        NarrowPhase.get_collision generic reg' A' B'
        = (Return (generic A' B'), reg')).
Proof.
  intros H1 H2 reg'. subst reg'.
  rewrite get_collision_generic_branch by done; simpl.
  assert (<[(body_type B, body_type A):=generic]>
            (<[(body_type A, body_type B):=generic]> reg)
            !! (body_type A, body_type B) = Some generic) as Hl.
  { destruct (decide ((body_type B, body_type A) = (body_type A, body_type B)))
      as [E|NE].
    - rewrite E. apply lookup_insert_eq.
    - rewrite lookup_insert_ne by done. apply lookup_insert_eq. }
  split_and!; [done|done|apply lookup_insert_eq| |].
  - intros k Hk1 Hk2. by rewrite !lookup_insert_ne.
  - intros A' B' [E|E]; apply get_collision_direct; rewrite E;
      [done|apply lookup_insert_eq].
Qed.

(** A ball against a polygon on the empty registry. *)
Lemma generic_fallback_registered_both_ways_witness :
  (∅ : Registry) !! ("Circle", "Poly") = None
  ∧ (∅ : Registry) !! ("Poly", "Circle") = None
  ∧ (NarrowPhase.get_collision generic ∅ ball poly).1 = Return (generic ball poly)
  ∧ (NarrowPhase.get_collision generic ∅ ball poly).2 !! ("Circle", "Poly")
    = Some generic
  ∧ (NarrowPhase.get_collision generic ∅ ball poly).2 !! ("Poly", "Circle")
    = Some generic.
Proof.
  pose proof (generic_fallback_registered_both_ways generic ∅ ball poly
                eq_refl eq_refl) as (H1 & H2 & H3 & _).
  split_and!; [reflexivity|reflexivity|exact H1|exact H2|exact H3].
Defined.

(** C5 (as amended): when [get_collision(A, B)] finds no direct entry for
    [(type(A), type(B))] and the test registered for [(type(B), type(A))]
    reports a collision on [(B, A)], it registers under
    [(type(A), type(B))] the wrapper that calls the reversed implementation
    with the arguments swapped and swaps the contact it returns; every later
    pair of these types is answered by that wrapper in one direct lookup that
    leaves the registry as it is. *)
Theorem reversed_hit_registers_wrapper
    (generic : Test) (reg : Registry) (A B : Body) (g : Test) (col : Collision) :
  reg !! (body_type A, body_type B) = None →
  reg !! (body_type B, body_type A) = Some g →
  g B A = Some col →
  let reg' := (NarrowPhase.get_collision generic reg A B).2 in
  reg' !! (body_type A, body_type B) = Some (NarrowPhase.inverse g)
  ∧ (∀ X Y, NarrowPhase.inverse g X Y = swapped <$> g Y X)
  ∧ (∀ A' B', body_type A' = body_type A → body_type B' = body_type B →
        NarrowPhase.get_collision generic reg' A' B'
        = (Return (swapped <$> g B' A'), reg')).
Proof.
  intros H1 H2 H3 reg'. subst reg'.
  rewrite (get_collision_reversed_hit _ _ _ _ g col) by done; simpl.
  split_and!.
  - apply lookup_insert_eq.
  - apply inverse_fmap.
  - intros A' B' HA HB. rewrite <- inverse_fmap.
    apply get_collision_direct. rewrite HA, HB. apply lookup_insert_eq.
Qed.

(** A ball against a polygon, the reversed test reporting a contact. *)
Lemma reversed_hit_registers_wrapper_witness :
  reg_hit !! ("Circle", "Poly") = None
  ∧ reg_hit !! ("Poly", "Circle") = Some hit
  ∧ hit poly ball = Some (mkCollision poly ball (mkVec 1 0) None)
  ∧ (NarrowPhase.get_collision generic reg_hit ball poly).2 !! ("Circle", "Poly")
    = Some (NarrowPhase.inverse hit)
  ∧ NarrowPhase.get_collision generic
      (NarrowPhase.get_collision generic reg_hit ball poly).2 ball poly
    = (Return (swapped <$> hit poly ball),
       (NarrowPhase.get_collision generic reg_hit ball poly).2).
Proof.
  pose proof (reversed_hit_registers_wrapper generic reg_hit ball poly hit
                (mkCollision poly ball (mkVec 1 0) None)
                eq_refl eq_refl eq_refl) as (H1 & _ & H3).
  split_and!; [reflexivity|reflexivity|reflexivity|exact H1|].
  exact (H3 ball poly eq_refl eq_refl).
Defined.

(** C5 as stated fails: the reversed test is registered but reports no
    collision, and the call leaves the registry as it was, with no entry for
    (Circle, Poly). *)
Lemma reversed_miss_registers_nothing :
  reg_miss !! ("Circle", "Poly") = None
  ∧ reg_miss !! ("Poly", "Circle") = Some miss
  ∧ NarrowPhase.get_collision generic reg_miss ball poly = (Return None, reg_miss)
  ∧ (NarrowPhase.get_collision generic reg_miss ball poly).2 !! ("Circle", "Poly")
    = None.
Proof. split_and!; reflexivity. Qed.




(** C7: with no direct entry for [(type(A), type(B))] and a test registered
    for [(type(B), type(A))], whenever resolving [(B, A)] directly yields a
    contact of normal (x, y), [get_collision(A, B)] yields a contact of
    normal (-x, -y). *)
Theorem reversed_normal_is_negated
    (generic : Test) (reg : Registry) (A B : Body) (g : Test) (col : Collision) :
  reg !! (body_type A, body_type B) = None →
  reg !! (body_type B, body_type A) = Some g →
  (NarrowPhase.get_collision generic reg B A).1 = Return (Some col) →
  ∃ col', (NarrowPhase.get_collision generic reg A B).1 = Return (Some col')
          ∧ vx (col_normal col') = - vx (col_normal col)
          ∧ vy (col_normal col') = - vy (col_normal col).
Proof.
  intros H1 H2 HBA.
  rewrite (get_collision_direct _ _ _ _ g) in HBA by done. simpl in HBA.
  injection HBA as HBA.
  exists (negate_normal col). split; [|done].
  by rewrite (get_collision_reversed_hit _ _ _ _ g col).
Qed.

(** The normal (1, 0) of (poly, ball) comes back as (-1, 0) for
    (ball, poly). *)
Lemma reversed_normal_is_negated_witness :
  reg_hit !! ("Circle", "Poly") = None
  ∧ reg_hit !! ("Poly", "Circle") = Some hit
  ∧ (NarrowPhase.get_collision generic reg_hit poly ball).1
    = Return (Some (mkCollision poly ball (mkVec 1 0) None))
  ∧ ∃ col', (NarrowPhase.get_collision generic reg_hit ball poly).1
            = Return (Some col')
            ∧ vx (col_normal col') = -1 ∧ vy (col_normal col') = 0.
Proof.
  split_and!; [reflexivity|reflexivity|reflexivity|].
  exact (reversed_normal_is_negated generic reg_hit ball poly hit
           (mkCollision poly ball (mkVec 1 0) None) eq_refl eq_refl eq_refl).
Defined.

(** C8: the code against the claim.  With only polygon against circle
    registered, a first update of the narrow phase on the pair (ball, poly)
    holds the contact with the bodies in the order (poly, ball) and caches
    the wrapper for (Circle, Poly); the same update run again on the same
    input then holds the contact with the bodies in the order (ball, poly):
    what is held after [update(input)] depends on the earlier update. *)
Lemma second_update_differs :
  NarrowPhase.update generic narrow0 reg_hit [AABBContact ball poly]
  = (Return narrow1, <[("Circle", "Poly") := NarrowPhase.inverse hit]> reg_hit)
  ∧ (NarrowPhase.update generic narrow1
       (<[("Circle", "Poly") := NarrowPhase.inverse hit]> reg_hit)
       [AABBContact ball poly]).1
    = Return narrow2
  ∧ _data narrow2 ≠ _data narrow1.
Proof. split_and!; try reflexivity. intros H; discriminate H. Qed.

(** C9 (what the code does): [get_groups] prints a box broad phase built
    from the contacts and returns [None], for every input; no groups are
    computed. *)
Theorem get_groups_returns_none
    (self : Phase Collision) (cols : option (list Collision)) :
  (NarrowPhase.get_groups self cols).1 = None.
Proof. reflexivity. Qed.

(** C10 (as amended): the tests are inclusive where the computed values are
    equal.  In the circle sweep the skip fires only when the computed norm is
    strictly greater: a body [B] that follows [A] in sorted order, that the
    break does not cut off ([B]'s computed lower extent is not greater than
    [A]'s computed upper extent) and whose computed distance to [A] equals
    the computed sum of the radii, is held with [A].  In the box sweep a body
    [B] that follows [A] in sorted order with [xmin B = xmax A] is not cut
    off by the break and [AABBContact A B] is held when the vertical shadow
    is positive; the same for two well-formed boxes of the input list, in
    whichever order the sort puts them.  All this when the pair is neither
    both non-dynamic nor both asleep. *)
Theorem touching_pairs_reported
    (ar : Arith) (self : Phase Pair) (L : list Body) (A B : Body) :
  both_static A B = false → both_asleep A B = false →
  (before (sorted (cbb_lo ar) L) A B →
   cbb_lo ar B <= cbb_hi ar A → circle_eq ar A B →
   CBBContact A B ∈ _data (BroadPhaseCBB.update ar self L))
  ∧ (before (sorted xmin L) A B →
     xmin B = xmax A → 0 < shadow_y A B →
     AABBContact A B ∈ _data (BroadPhaseAABB.update self L))
  ∧ (two_of L A B → aabb_wf A → aabb_wf B →
     xmin B = xmax A → 0 < shadow_y A B →
     ∃ p, p ∈ _data (BroadPhaseAABB.update self L) ∧ links p A B).
Proof.
  intros Hst Hsl.
  assert (∀ X Y, both_static X Y = false → both_asleep X Y = false →
                 before (sorted xmin L) X Y → xmin Y <= xmax X →
                 0 < shadow_y X Y →
                 AABBContact X Y ∈ _data (BroadPhaseAABB.update self L)) as Hbox.
  { intros X Y ? ? Hb Hr Hsh. apply elem_of_aabb_update.
    exists X, Y. split_and!; try done. by apply keep_aabb_true. }
  split_and!.
  - intros Hb Hr Heq. apply elem_of_cbb_update.
    exists A, B. split_and!; try done.
    apply keep_cbb_true. split_and!; try done.
    unfold circle_gt. unfold circle_eq in Heq. by rewrite Heq.
  - intros Hb Hx Hsh. apply Hbox; try done. lia.
  - intros H2 HwA HwB Hx Hsh. unfold aabb_wf in *.
    apply (two_of_sorted xmin), two_of_before in H2 as [Hb|Hb].
    + exists (AABBContact A B). split; [|by left]. apply Hbox; try done. lia.
    + exists (AABBContact B A). split; [|by right].
      pose proof (before_sorted xmin _ _ _ (sorted_StronglySorted xmin L) Hb).
      apply Hbox; try done.
      * by rewrite both_static_sym.
      * by rewrite both_asleep_sym.
      * lia.
      * by rewrite shadow_y_sym.
Qed.

(** Two discs of radius 5 centred at (0, 0) and (10, 0), with the arithmetic
    of floats. *)
Lemma touching_pairs_reported_witness :
  CBBContact left_disc right_disc
  ∈ _data (BroadPhaseCBB.update Float64.arith phase0 [right_disc; left_disc])
  ∧ AABBContact left_disc right_disc
    ∈ _data (BroadPhaseAABB.update phase0 [right_disc; left_disc])
  ∧ (∃ p, p ∈ _data (BroadPhaseAABB.update phase0 [right_disc; left_disc])
          ∧ links p left_disc right_disc).
Proof.
  pose proof (touching_pairs_reported Float64.arith phase0
                [right_disc; left_disc] left_disc right_disc eq_refl eq_refl)
    as (Hc & Hs & Hb).
  assert (two_of [right_disc; left_disc] left_disc right_disc) as H2.
  { exists 1%nat, 0%nat. split_and!; [lia|reflexivity|reflexivity]. }
  split_and!.
  - apply Hc; [|by vm_compute|by vm_compute].
    exists [], [], []. by vm_compute.
  - apply Hs; [|reflexivity|reflexivity].
    exists [], [], []. reflexivity.
  - apply Hb; [exact H2|unfold aabb_wf; simpl; lia..|reflexivity|reflexivity].
Defined.

(** C10 as stated fails for circles, with the arithmetic of floats.  For
    [near] and [far_off] the computed distance between the centres equals the
    computed sum of the radii, and no filter applies, but the break cuts the
    pair: nothing is held.  And [huge] and [unit_disc] touch in exactly one
    point, but the norm is computed as 10 ^ 16 + 2 and the sum of the radii
    as 10 ^ 16: the pair is skipped. *)
Lemma touching_circles_counterexample :
  (circle_eq Float64.arith near far_off
   ∧ both_static near far_off = false ∧ both_asleep near far_off = false
   ∧ _data (BroadPhaseCBB.update Float64.arith phase0 [near; far_off]) = []
   ∧ _data (BroadPhaseCBB.update Float64.arith phase0 [far_off; near]) = [])
  ∧ (circles_touch huge unit_disc = true
     ∧ both_static huge unit_disc = false ∧ both_asleep huge unit_disc = false
     ∧ _data (BroadPhaseCBB.update Float64.arith phase0 [huge; unit_disc]) = []
     ∧ _data (BroadPhaseCBB.update Float64.arith phase0 [unit_disc; huge]) = []).
Proof. by vm_compute. Qed.

(** * Further properties of the code *)

(** ** The sweeps as a double loop *)

Section NaiveFacts.
Variables (lo hi : Body → Z) (keep : Body → Body → bool)
  (mk : Body → Body → Pair).


Lemma naive_scan_none test A rest :
  Forall (λ B, test A B = false) rest → naive_scan test mk A rest = [].
Proof.
  induction 1 as [|B rest HB _ IH]; simpl; [done|]. by rewrite HB.
Qed.

Lemma gscan_naive A rest :
  StronglySorted (key_le lo) rest →
  gscan lo hi keep mk A rest [] = naive_scan (sweep_test lo hi keep) mk A rest.
Proof.
  induction 1 as [|B rest Hs IH HB]; simpl; [done|]. unfold sweep_test at 1.
  destruct (Z.gtb_spec (lo B) (hi A)) as [Hgt|Hle].
  - rewrite (proj2 (Z.leb_gt _ _)) by lia. simpl.
    symmetry. apply naive_scan_none.
    eapply Forall_impl; [exact HB|]. unfold key_le, sweep_test. intros C HC.
    rewrite (proj2 (Z.leb_gt _ _)) by lia. done.
  - rewrite (proj2 (Z.leb_le _ _)) by lia. simpl.
    destruct (keep A B); [|done].
    by rewrite gscan_app, IH.
Qed.

Lemma gsweep_naive S :
  StronglySorted (key_le lo) S →
  gsweep lo hi keep mk S [] = naive_pairs (sweep_test lo hi keep) mk S.
Proof.
  induction 1 as [|A rest Hs IH HA]; simpl; [done|].
  by rewrite gsweep_app, gscan_naive, IH.
Qed.

Lemma naive_scan_length test A rest :
  (length (naive_scan test mk A rest) ≤ length rest)%nat.
Proof.
  induction rest as [|B rest IH]; simpl; [done|].
  destruct (test A B); simpl; lia.
Qed.

Lemma naive_pairs_length test S :
  (2 * length (naive_pairs test mk S) ≤ length S * (length S - 1))%nat.
Proof.
  induction S as [|A rest IH]; simpl; [done|].
  rewrite length_app. pose proof (naive_scan_length test A rest).
  destruct rest; simpl in *; nia.
Qed.

Lemma elem_of_naive_scan test A rest p :
  p ∈ naive_scan test mk A rest ↔ ∃ Y, p = mk A Y ∧ Y ∈ rest ∧ test A Y = true.
Proof.
  induction rest as [|B rest IH]; simpl.
  - split; [by intros ?%elem_of_nil|by intros (Y & _ & ?%elem_of_nil & _)].
  - destruct (test A B) eqn:Ht.
    + rewrite elem_of_cons, IH. split.
      * intros [->|(Y & ? & ? & ?)]; [exists B|exists Y];
          rewrite elem_of_cons; auto.
      * intros (Y & -> & [->|HY]%elem_of_cons & ?); [by left|right; by exists Y].
    + rewrite IH. split.
      * intros (Y & ? & ? & ?). exists Y. rewrite elem_of_cons. auto.
      * intros (Y & -> & [->|HY]%elem_of_cons & ?); [congruence|by exists Y].
Qed.

Hypothesis mk_inj : ∀ A B A' B', mk A B = mk A' B' → A = A' ∧ B = B'.

Lemma naive_scan_NoDup test A rest :
  NoDup rest → NoDup (naive_scan test mk A rest).
Proof.
  induction 1 as [|B rest HB Hnd IH]; simpl; [constructor|].
  destruct (test A B); [|done]. constructor; [|done].
  intros (Y & E & HY & _)%elem_of_naive_scan.
  apply mk_inj in E as [_ ->]. done.
Qed.

Lemma naive_pairs_first test S p :
  p ∈ naive_pairs test mk S → ∃ X Y, p = mk X Y ∧ X ∈ S.
Proof.
  induction S as [|A rest IH]; simpl; [by intros ?%elem_of_nil|].
  intros [(Y & -> & _)%elem_of_naive_scan|H]%elem_of_app.
  - exists A, Y. split; [done|]. by left.
  - destruct (IH H) as (X & Y & -> & HX). exists X, Y. split; [done|]. by right.
Qed.

Lemma naive_pairs_NoDup test S : NoDup S → NoDup (naive_pairs test mk S).
Proof.
  induction 1 as [|A rest HA Hnd IH]; simpl; [constructor|].
  apply NoDup_app. split_and!; [by apply naive_scan_NoDup| |done].
  intros p (Y & -> & _)%elem_of_naive_scan (X & Y' & E & HX)%naive_pairs_first.
  apply mk_inj in E as [-> _]. done.
Qed.

End NaiveFacts.

Lemma before_lookup_lt {T} (S : list T) X Y :
  before S X Y → ∃ i j : nat, (i < j)%nat ∧ S !! i = Some X ∧ S !! j = Some Y.
Proof.
  intros (l1 & l2 & l3 & ->).
  exists (length l1), (length l1 + Datatypes.S (length l2))%nat.
  split; [lia|]. split.
  - by rewrite list_lookup_middle.
  - rewrite lookup_app_r by lia.
    replace (length l1 + Datatypes.S (length l2) - length l1)%nat
      with (Datatypes.S (length l2)) by lia.
    simpl. by rewrite list_lookup_middle.
Qed.

(** In a list without repetition two elements come in one order only. *)
Lemma before_NoDup_asym {T} (S : list T) X Y :
  NoDup S → before S X Y → before S Y X → False.
Proof.
  intros Hnd (i & j & Hij & Hi & Hj)%before_lookup_lt
             (i' & j' & Hij' & Hi' & Hj')%before_lookup_lt.
  pose proof (NoDup_lookup _ _ _ _ Hnd Hi Hj').
  pose proof (NoDup_lookup _ _ _ _ Hnd Hj Hi'). lia.
Qed.

Lemma naive_scan_ext test test' mk A rest :
  (∀ B, test A B = test' A B) →
  naive_scan test mk A rest = naive_scan test' mk A rest.
Proof.
  intros E. induction rest as [|B rest IH]; simpl; [done|].
  by rewrite E, IH.
Qed.

Lemma naive_pairs_ext test test' mk S :
  (∀ A B, test A B = test' A B) →
  naive_pairs test mk S = naive_pairs test' mk S.
Proof.
  intros E. induction S as [|A rest IH]; simpl; [done|].
  by rewrite IH, (naive_scan_ext test test').
Qed.

Lemma aabb_update_naive self L :
  _data (BroadPhaseAABB.update self L)
  = naive_pairs (sweep_test xmin xmax keep_aabb) AABBContact (sorted xmin L).
Proof.
  unfold BroadPhaseAABB.update; simpl. rewrite aabb_sweep_gsweep.
  apply gsweep_naive, sorted_StronglySorted.
Qed.

Lemma cbb_update_naive ar self L :
  _data (BroadPhaseCBB.update ar self L)
  = naive_pairs (sweep_test (cbb_lo ar) (cbb_hi ar) (keep_cbb ar)) CBBContact
      (sorted (cbb_lo ar) L).
Proof.
  unfold BroadPhaseCBB.update; simpl. rewrite cbb_sweep_gsweep.
  apply gsweep_naive, sorted_StronglySorted.
Qed.

(** X1: the break is only a shortcut.  The list held after a sweep is, in
    content and in order, what the double loop without early exit produces
    on the sorted bodies: every body against every later one, kept when the
    later one starts no later than the earlier one ends (as the sweep
    computes the two extents) and the pair passes the filters and the
    overlap test. *)
Theorem sweep_is_double_loop (ar : Arith) (self : Phase Pair) (L : list Body) :
  _data (BroadPhaseAABB.update self L)
  = naive_pairs (λ A B, (xmin B <=? xmax A) && keep_aabb A B) AABBContact
      (sorted xmin L)
  ∧ _data (BroadPhaseCBB.update ar self L)
    = naive_pairs (λ A B, (cbb_lo ar B <=? cbb_hi ar A) && keep_cbb ar A B)
        CBBContact (sorted (cbb_lo ar) L).
Proof. split; [apply aabb_update_naive|apply cbb_update_naive]. Qed.

Lemma sorted_length {T} (key : T → Z) (L : list T) :
  length (sorted key L) = length L.
Proof. apply Permutation_length, sorted_Permutation. Qed.

(** X2: a sweep over n bodies holds at most n (n - 1) / 2 pairs, so none
    for fewer than two bodies. *)
Theorem broad_update_at_most_all_pairs
    (ar : Arith) (self : Phase Pair) (L : list Body) :
  (2 * length (_data (BroadPhaseAABB.update self L))
   ≤ length L * (length L - 1))%nat
  ∧ (2 * length (_data (BroadPhaseCBB.update ar self L))
     ≤ length L * (length L - 1))%nat.
Proof.
  split.
  - rewrite aabb_update_naive, <- (sorted_length xmin L).
    apply naive_pairs_length.
  - rewrite cbb_update_naive, <- (sorted_length (cbb_lo ar) L).
    apply naive_pairs_length.
Qed.

(** X3: in every held pair the first body is the one the sort puts first:
    it starts no later than the second, and the second starts no later than
    the first ends. *)
Theorem held_pairs_in_sweep_order
    (ar : Arith) (self : Phase Pair) (L : list Body) :
  Forall (λ p, xmin (bodies p).1 <= xmin (bodies p).2 <= xmax (bodies p).1)
         (_data (BroadPhaseAABB.update self L))
  ∧ Forall (λ p, cbb_lo ar (bodies p).1 <= cbb_lo ar (bodies p).2
                 <= cbb_hi ar (bodies p).1)
           (_data (BroadPhaseCBB.update ar self L)).
Proof.
  split; apply Forall_forall; intros p Hp.
  - apply elem_of_aabb_update in Hp as (X & Y & -> & Hb & Hr & _); simpl.
    split; [|done].
    exact (before_sorted xmin _ _ _ (sorted_StronglySorted xmin L) Hb).
  - apply elem_of_cbb_update in Hp as (X & Y & -> & Hb & Hr & _); simpl.
    split; [|done].
    exact (before_sorted (cbb_lo ar) _ _ _
             (sorted_StronglySorted (cbb_lo ar) L) Hb).
Qed.

Lemma sorted_NoDup {T} (key : T → Z) (L : list T) : NoDup L → NoDup (sorted key L).
Proof. intros H. by rewrite sorted_Permutation. Qed.

(** X4: when no body occurs twice in the input, no pair is held twice, and
    never in both orders (so no body is paired with itself). *)
Theorem no_pair_reported_twice
    (ar : Arith) (self : Phase Pair) (L : list Body) :
  NoDup L →
  NoDup (_data (BroadPhaseAABB.update self L))
  ∧ NoDup (_data (BroadPhaseCBB.update ar self L))
  ∧ (∀ A B, ¬ (AABBContact A B ∈ _data (BroadPhaseAABB.update self L)
               ∧ AABBContact B A ∈ _data (BroadPhaseAABB.update self L)))
  ∧ (∀ A B, ¬ (CBBContact A B ∈ _data (BroadPhaseCBB.update ar self L)
               ∧ CBBContact B A ∈ _data (BroadPhaseCBB.update ar self L))).
Proof.
  intros Hnd. split_and!.
  - rewrite aabb_update_naive. apply naive_pairs_NoDup; [|by apply sorted_NoDup].
    by intros ???? [= -> ->].
  - rewrite cbb_update_naive. apply naive_pairs_NoDup; [|by apply sorted_NoDup].
    by intros ???? [= -> ->].
  - intros A B [H1 H2].
    apply elem_of_aabb_update in H1 as (X & Y & [= <- <-] & Hb1 & _).
    apply elem_of_aabb_update in H2 as (X' & Y' & [= <- <-] & Hb2 & _).
    eapply before_NoDup_asym; [|exact Hb1|exact Hb2]. by apply sorted_NoDup.
  - intros A B [H1 H2].
    apply elem_of_cbb_update in H1 as (X & Y & [= <- <-] & Hb1 & _).
    apply elem_of_cbb_update in H2 as (X' & Y' & [= <- <-] & Hb2 & _).
    eapply before_NoDup_asym; [|exact Hb1|exact Hb2]. by apply sorted_NoDup.
Qed.

(** Two distinct discs, with the arithmetic of floats. *)
Lemma no_pair_reported_twice_witness :
  NoDup [disc2; disc1]
  ∧ NoDup (_data (BroadPhaseAABB.update phase0 [disc2; disc1]))
  ∧ NoDup (_data (BroadPhaseCBB.update Float64.arith phase0 [disc2; disc1]))
  ∧ ¬ (AABBContact disc1 disc2 ∈ _data (BroadPhaseAABB.update phase0 [disc2; disc1])
       ∧ AABBContact disc2 disc1
         ∈ _data (BroadPhaseAABB.update phase0 [disc2; disc1])).
Proof.
  assert (NoDup [disc2; disc1]) as Hnd.
  { apply (bool_decide_unpack _). reflexivity. }
  destruct (no_pair_reported_twice Float64.arith phase0 [disc2; disc1] Hnd)
    as (H1 & H2 & H3 & _).
  split_and!; [exact Hnd|exact H1|exact H2|exact (H3 disc1 disc2)].
Defined.

(** X5: the unordered pairs held do not depend on the order in which the
    bodies are given: for the box sweep on boxes of well-formed horizontal
    extent, for the circle sweep on circles of well-formed computed extent
    whose test answers the same in both orders. *)
Theorem pairs_independent_of_input_order
    (ar : Arith) (self : Phase Pair) (L L' : list Body) (A B : Body) :
  L ≡ₚ L' →
  (Forall aabb_wf L →
   (∃ p, p ∈ _data (BroadPhaseAABB.update self L) ∧ links p A B) ↔
   (∃ p, p ∈ _data (BroadPhaseAABB.update self L') ∧ links p A B))
  ∧ (Forall (cbb_wf ar) L → circle_test_symmetric ar L →
     (∃ p, p ∈ _data (BroadPhaseCBB.update ar self L) ∧ links p A B) ↔
     (∃ p, p ∈ _data (BroadPhaseCBB.update ar self L') ∧ links p A B)).
Proof.
  intros HP.
  assert (two_of L A B ↔ two_of L' A B) as H2.
  { split; apply two_of_Permutation; [done|by symmetry]. }
  split.
  - intros Hwf. rewrite !aabb_update_links; [by rewrite H2|by rewrite <- HP|done].
  - intros Hwf Hsym.
    rewrite !cbb_update_links;
      [by rewrite H2|by rewrite <- HP
      |by apply (circle_test_symmetric_Permutation ar L)|done|done].
Qed.

(** The two discs in both orders, with the arithmetic of floats. *)
Lemma pairs_independent_of_input_order_witness :
  [disc1; disc2] ≡ₚ [disc2; disc1]
  ∧ Forall aabb_wf [disc1; disc2]
  ∧ Forall (cbb_wf Float64.arith) [disc1; disc2]
  ∧ circle_test_symmetric Float64.arith [disc1; disc2]
  ∧ ((∃ p, p ∈ _data (BroadPhaseAABB.update phase0 [disc1; disc2])
           ∧ links p disc1 disc2) ↔
     (∃ p, p ∈ _data (BroadPhaseAABB.update phase0 [disc2; disc1])
           ∧ links p disc1 disc2))
  ∧ ((∃ p, p ∈ _data (BroadPhaseCBB.update Float64.arith phase0 [disc1; disc2])
           ∧ links p disc1 disc2) ↔
     (∃ p, p ∈ _data (BroadPhaseCBB.update Float64.arith phase0 [disc2; disc1])
           ∧ links p disc1 disc2)).
Proof.
  assert ([disc1; disc2] ≡ₚ [disc2; disc1]) as HP by apply perm_swap.
  assert (Forall aabb_wf [disc1; disc2]) as Hwf.
  { repeat constructor; unfold aabb_wf; simpl; lia. }
  assert (Forall (cbb_wf Float64.arith) [disc1; disc2]) as Hcwf.
  { repeat constructor; by vm_compute. }
  assert (circle_test_symmetric Float64.arith [disc1; disc2]) as Hsym.
  { apply circle_test_symmetric_Forall. repeat constructor; by vm_compute. }
  destruct (pairs_independent_of_input_order Float64.arith phase0 _ _
              disc1 disc2 HP) as [H1 H2].
  split_and!; [exact HP|exact Hwf|exact Hcwf|exact Hsym
              |exact (H1 Hwf)|exact (H2 Hcwf Hsym)].
Defined.

(** ** The bodies in play *)

Lemma elem_of_objects_fold {T} (unpack : T → Body * Body) (l : list T)
    (acc : gset Body) (x : Body) :
  x ∈ foldl (λ objs p, let '(A, B) := unpack p in (objs ∪ {[A]}) ∪ {[B]}) acc l
  ↔ x ∈ acc ∨ ∃ p, p ∈ l ∧ (x = (unpack p).1 ∨ x = (unpack p).2).
Proof.
  revert acc. induction l as [|q l IH]; intros acc; simpl.
  - split; [by left|]. intros [?|(p & ?%elem_of_nil & _)]; done.
  - rewrite IH. destruct (unpack q) as [A B] eqn:Hq.
    rewrite !elem_of_union, !elem_of_singleton. split.
    + intros [[[?| ->]| ->]|(p & Hp & Hx)]; [by left|right..].
      * exists q. rewrite Hq. split; [by left|by left].
      * exists q. rewrite Hq. split; [by left|by right].
      * exists p. split; [by right|done].
    + intros [?|(p & [->|Hp]%elem_of_cons & Hx)]; [by left;left;left| |].
      * rewrite Hq in Hx. simpl in Hx. destruct Hx as [->| ->];
          [left;left;by right|left;by right].
      * right. by exists p.
Qed.

Lemma elem_of_objects {T} (unpack : T → Body * Body) (self : Phase T) x :
  x ∈ AbstractCollisionPhase.objects unpack self
  ↔ ∃ p, p ∈ _data self ∧ (x = (unpack p).1 ∨ x = (unpack p).2).
Proof.
  unfold AbstractCollisionPhase.objects. rewrite elem_of_objects_fold.
  split; [|by right]. intros [?%not_elem_of_empty|?]; done.
Qed.

(** X6: [objects()] yields exactly the bodies that occur, first or second,
    in a held pair. *)
Theorem objects_are_bodies_of_held_pairs {T} (unpack : T → Body * Body)
    (self : Phase T) (x : Body) :
  x ∈ AbstractCollisionPhase.objects unpack self
  ↔ ∃ p, p ∈ _data self ∧ (x = (unpack p).1 ∨ x = (unpack p).2).
Proof. apply elem_of_objects. Qed.

Lemma links_bodies p : links p (bodies p).1 (bodies p).2.
Proof. left. by destruct (bodies p). Qed.


(** ** The registry across calls *)


Section RegistryFacts.
Variable generic : Test.

Lemma get_collision_grows reg A B :
  reg ⊆ (NarrowPhase.get_collision generic reg A B).2.
Proof.
  destruct (reg !! (body_type A, body_type B)) as [f|] eqn:H1.
  { by rewrite (get_collision_direct _ _ _ _ f). }
  destruct (reg !! (body_type B, body_type A)) as [g|] eqn:H2.
  - destruct (g B A) as [col|] eqn:H3.
    + rewrite (get_collision_reversed_hit _ _ _ _ g col) by done.
      by apply insert_subseteq.
    + by rewrite (get_collision_reversed_miss _ _ _ _ g).
  - rewrite get_collision_generic_branch by done; simpl.
    trans (<[(body_type A, body_type B):=generic]> reg);
      [by apply insert_subseteq|].
    destruct (decide ((body_type B, body_type A) = (body_type A, body_type B)))
      as [E|NE].
    + rewrite E. by rewrite insert_insert_eq.
    + apply insert_subseteq. by rewrite lookup_insert_ne.
Qed.

Lemma scan_grows w broad_cols cols reg :
  reg ⊆ (NarrowPhase.scan generic w broad_cols cols reg).2.
Proof.
  revert cols reg. induction broad_cols as [|p rest IH]; intros cols reg; simpl.
  { done. }
  destruct (bodies p) as [A B].
  pose proof (get_collision_grows reg A B) as Hg.
  pose proof (get_collision_resolved generic reg A B) as Hres.
  destruct (NarrowPhase.get_collision generic reg A B) as [o reg'].
  simpl in Hg, Hres. subst o.
  destruct (resolved generic reg A B); (etrans; [exact Hg|apply IH]).
Qed.

Lemma update_registry self reg broad_cols :
  (NarrowPhase.update generic self reg broad_cols).2
  = (NarrowPhase.scan generic (world self) broad_cols [] reg).2.
Proof.
  unfold NarrowPhase.update; simpl.
  by destruct (NarrowPhase.scan _ _ _ _ _) as [[|?] ?].
Qed.

Lemma settled_unchanged reg A B :
  settled reg A B → (NarrowPhase.get_collision generic reg A B).2 = reg.
Proof.
  intros [[f H1]|(g & H2 & H3)].
  - by rewrite (get_collision_direct _ _ _ _ f).
  - destruct (reg !! (body_type A, body_type B)) as [f|] eqn:H1.
    + by rewrite (get_collision_direct _ _ _ _ f).
    + by rewrite (get_collision_reversed_miss _ _ _ _ g).
Qed.

Lemma get_collision_settles reg A B :
  settled (NarrowPhase.get_collision generic reg A B).2 A B.
Proof.
  destruct (reg !! (body_type A, body_type B)) as [f|] eqn:H1.
  { rewrite (get_collision_direct _ _ _ _ f) by done. left. by exists f. }
  destruct (reg !! (body_type B, body_type A)) as [g|] eqn:H2.
  - destruct (g B A) as [col|] eqn:H3.
    + rewrite (get_collision_reversed_hit _ _ _ _ g col) by done; simpl.
      left. rewrite lookup_insert_eq. by eexists.
    + rewrite (get_collision_reversed_miss _ _ _ _ g) by done.
      right. by exists g.
  - rewrite get_collision_generic_branch by done; simpl. left.
    destruct (decide ((body_type B, body_type A) = (body_type A, body_type B)))
      as [E|NE].
    + rewrite E, lookup_insert_eq. by eexists.
    + rewrite lookup_insert_ne, lookup_insert_eq by done. by eexists.
Qed.

Lemma settled_mono reg reg' A B : reg ⊆ reg' → settled reg A B → settled reg' A B.
Proof.
  intros Hsub [[f H1]|(g & H2 & H3)].
  - left. exists f. by eapply lookup_weaken.
  - right. exists g. split; [by eapply lookup_weaken|done].
Qed.

Lemma scan_settles w broad_cols cols reg :
  Forall (λ p, settled (NarrowPhase.scan generic w broad_cols cols reg).2
                 (bodies p).1 (bodies p).2) broad_cols.
Proof.
  revert cols reg. induction broad_cols as [|p rest IH]; intros cols reg; simpl.
  { constructor. }
  destruct (bodies p) as [A B] eqn:Hp.
  pose proof (get_collision_settles reg A B) as Hs.
  pose proof (get_collision_resolved generic reg A B) as Hres.
  destruct (NarrowPhase.get_collision generic reg A B) as [o reg'].
  simpl in Hs, Hres. subst o.
  destruct (resolved generic reg A B); constructor; try apply IH;
    (eapply settled_mono; [apply scan_grows|by rewrite Hp]).
Qed.

Lemma scan_settled_unchanged w broad_cols cols reg :
  Forall (λ p, settled reg (bodies p).1 (bodies p).2) broad_cols →
  (NarrowPhase.scan generic w broad_cols cols reg).2 = reg.
Proof.
  intros H. revert cols. induction H as [|p rest Hp _ IH]; intros cols; simpl.
  { done. }
  destruct (bodies p) as [A B]. simpl in Hp.
  pose proof (settled_unchanged reg A B Hp) as Hu.
  pose proof (get_collision_resolved generic reg A B) as Hres.
  destruct (NarrowPhase.get_collision generic reg A B) as [o reg'].
  simpl in Hu, Hres. subst o reg'.
  destruct (resolved generic reg A B); apply IH.
Qed.

Lemma scan_reg_equiv w broad_cols cols reg :
  reg_equiv generic reg (NarrowPhase.scan generic w broad_cols cols reg).2.
Proof.
  revert cols reg. induction broad_cols as [|p rest IH]; intros cols reg; simpl.
  { intros A B. apply same_report_refl. }
  destruct (bodies p) as [A B].
  pose proof (get_collision_reg_equiv generic reg A B) as He.
  pose proof (get_collision_resolved generic reg A B) as Hres.
  destruct (NarrowPhase.get_collision generic reg A B) as [o reg'].
  simpl in He, Hres. subst o.
  destruct (resolved generic reg A B);
    (eapply reg_equiv_trans; [exact He|apply IH]).
Qed.

End RegistryFacts.

(** X8: [get_collision] and [update] only add entries to the registry:
    every entry present before the call is present, unchanged, after it. *)
Theorem registry_only_grows (generic : Test) (self : Phase Collision)
    (reg : Registry) (A B : Body) (broad_cols : list Pair) :
  reg ⊆ (NarrowPhase.get_collision generic reg A B).2
  ∧ reg ⊆ (NarrowPhase.update generic self reg broad_cols).2.
Proof.
  split; [apply get_collision_grows|].
  rewrite update_registry. apply scan_grows.
Qed.

(** X9: registration happens once.  Resolving the same pair a second time
    leaves the registry as the first call left it, and a second [update] over
    the same candidate pairs registers nothing. *)
Theorem second_pass_registers_nothing (generic : Test)
    (self self' : Phase Collision) (reg : Registry) (A B : Body)
    (broad_cols : list Pair) :
  NarrowPhase.get_collision generic
    (NarrowPhase.get_collision generic reg A B).2 A B
  = (Return (resolved generic (NarrowPhase.get_collision generic reg A B).2 A B),
     (NarrowPhase.get_collision generic reg A B).2)
  ∧ (NarrowPhase.update generic self'
       (NarrowPhase.update generic self reg broad_cols).2 broad_cols).2
    = (NarrowPhase.update generic self reg broad_cols).2.
Proof.
  split.
  - rewrite (surjective_pairing (NarrowPhase.get_collision generic _ A B)).
    f_equal; [apply get_collision_resolved|].
    apply settled_unchanged, get_collision_settles.
  - rewrite !update_registry. apply scan_settled_unchanged, scan_settles.
Qed.

(** X10: whatever [update] registers, every pair resolves afterwards to the
    report it resolved to before: a collision or none, with the same normal
    and world. *)
Theorem update_preserves_resolution (generic : Test) (self : Phase Collision)
    (reg : Registry) (broad_cols : list Pair) (A B : Body) :
  ∃ before_ after_,
    (NarrowPhase.get_collision generic reg A B).1 = Return before_
    ∧ (NarrowPhase.get_collision generic
         (NarrowPhase.update generic self reg broad_cols).2 A B).1
      = Return after_
    ∧ same_report before_ after_.
Proof.
  eexists _, _. rewrite !get_collision_resolved. split_and!; [done..|].
  rewrite update_registry. apply scan_reg_equiv.
Qed.

(** ** The two phases in sequence *)


Lemma narrow_call_update generic self reg broad_cols :
  NarrowPhase.call generic self reg broad_cols
  = NarrowPhase.update generic self reg broad_cols.
Proof.
  unfold NarrowPhase.call.
  by destruct (NarrowPhase.update _ _ _ _) as [[|?] ?].
Qed.

Lemma narrow_held_from_candidates generic self reg broad_cols :
  ∃ cols,
    (NarrowPhase.call generic self reg broad_cols).1
      = Return (mkPhase (world self) cols)
    ∧ Forall (λ col, ∃ p, p ∈ broad_cols
                          ∧ emitted_for generic (world self) reg col p) cols.
Proof.
  rewrite narrow_call_update. unfold NarrowPhase.update; simpl.
  destruct (scan_spec generic (world self) reg broad_cols [] reg)
    as (cols & Hs & HF).
  { intros A B. apply same_report_refl. }
  exists cols. split.
  - destruct (NarrowPhase.scan _ _ _ _ _) as [o reg']. simpl in Hs. by subst o.
  - eapply Forall2_Forall_l; [exact HF|]. apply Forall_forall.
    intros p [_ Hp]%list_elem_of_filter col Hcol. by exists p.
Qed.

(** X11: the two phases in sequence.  Feeding a broad phase called on [L]
    to the narrow phase never raises, and every contact held stands for two
    bodies of [L] that pass the overlap test of the sweep (for circles the
    circle test does not reject them, for boxes of well-formed extent the
    boxes overlap) and both filters, and that collide according to the
    applicable test, with the narrow phase's world and that test's
    normal. *)
Theorem pipeline_contacts_stand_for_input_pairs (ar : Arith) (generic : Test)
    (broad : Phase Pair) (narrow : Phase Collision) (reg : Registry)
    (L : list Body) :
  (∃ cols,
      (NarrowPhase.call generic narrow reg
         (AbstractCollisionPhase.iter (BroadPhaseCBB.call ar broad L))).1
      = Return (mkPhase (world narrow) cols)
      ∧ Forall (stands_for_input_pair generic (world narrow) reg L
                  (λ A B, negb (circle_gt ar A B)))
               cols)
  ∧ (Forall aabb_wf L →
     ∃ cols,
       (NarrowPhase.call generic narrow reg
          (AbstractCollisionPhase.iter (BroadPhaseAABB.call broad L))).1
       = Return (mkPhase (world narrow) cols)
       ∧ Forall (stands_for_input_pair generic (world narrow) reg L aabb_overlap)
                cols).
Proof.
  split; [|intros Hwf].
  - destruct (narrow_held_from_candidates generic narrow reg
                (AbstractCollisionPhase.iter (BroadPhaseCBB.call ar broad L)))
      as (cols & Hs & HF).
    exists cols. split; [done|].
    eapply Forall_impl; [exact HF|]. intros col (p & Hp & Hw & c0 & Hc0 & Hn).
    apply elem_of_cbb_update in Hp as (X & Y & -> & Hb & _ & Hk).
    apply keep_cbb_true in Hk as (Hst & Hsl & Hc).
    exists X, Y. split_and!; try done.
    + by apply (two_of_sorted (cbb_lo ar)), before_two_of.
    + by rewrite Hc.
    + by exists c0.
  - destruct (narrow_held_from_candidates generic narrow reg
                (AbstractCollisionPhase.iter (BroadPhaseAABB.call broad L)))
      as (cols & Hs & HF).
    exists cols. split; [done|].
    eapply Forall_impl; [exact HF|]. intros col (p & Hp & Hw & c0 & Hc0 & Hn).
    destruct (proj1 (aabb_update_links broad L (bodies p).1 (bodies p).2 Hwf))
      as (H2 & Hov & Hst & Hsl).
    { exists p. split; [exact Hp|apply links_bodies]. }
    exists (bodies p).1, (bodies p).2. split_and!; try done. by exists c0.
Qed.

